(** * convert_to_safe_migration: the statement rewriter [make_safe]

    A shallow embedding of [scripts/convert_to_safe_migration.py] and the
    properties of its line scanner.

    Python strings are lists of Unicode code points.  The builtin string
    methods the script calls ([split], [join], [strip], [rstrip],
    [startswith], [replace], [in]) and the two regular
    expressions it searches for are modelled by the functions of module
    [Py]; the scanner itself is in module [Migration].  An [IndexError]
    raised by a list subscript is an explicit outcome of the model. *)

From Stdlib Require Import String Ascii List NArith Bool Arith Lia.
Import ListNotations.

(* ================================================================= *)
(** ** Python strings *)

Module Py.

(** A character is its code point; a string is the list of its
    characters. *)
Abbreviation char := N (only parsing).
Abbreviation str := (list N) (only parsing).

(** A string literal of the source, as its code points. *)
Definition py (s : string) : str := map N_of_ascii (list_ascii_of_string s).

Definition nl : char := 10%N.        (* line feed *)
Definition dquote : char := 34%N.    (* double quote *)
Definition squote : char := 39%N.    (* single quote *)
Definition semicolon : char := 59%N. (* semicolon *)

(** [s.startswith(p)] *)
Fixpoint startswith (s p : str) : bool :=
  match p, s with
  | [], _ => true
  | _ :: _, [] => false
  | a :: p', b :: s' => N.eqb a b && startswith s' p'
  end.

(** [sub in s] *)
Fixpoint str_in (sub s : str) : bool :=
  startswith s sub ||
  match s with
  | [] => false
  | _ :: s' => str_in sub s'
  end.

(** Puts [c] in front of the first piece of a list of pieces. *)
Definition cons_head (c : char) (l : list str) : list str :=
  match l with
  | [] => [[c]]
  | p :: ps => (c :: p) :: ps
  end.

(** [s.split(sep)] for a non-empty [sep]: the pieces between the
    occurrences of [sep], found left to right without overlap.  [skip]
    counts the characters of a separator just matched that are still to
    be passed over. *)
Fixpoint split_aux (sep : str) (skip : nat) (s : str) : list str :=
  match s with
  | [] => [[]]
  | c :: s' =>
      match skip with
      | S k => split_aux sep k s'
      | O =>
          if startswith s sep
          then [] :: split_aux sep (length sep - 1) s'
          else cons_head c (split_aux sep 0 s')
      end
  end.

Definition split (s sep : str) : list str := split_aux sep 0 s.

(** [sep.join(l)] *)
Fixpoint join (sep : str) (l : list str) : str :=
  match l with
  | [] => []
  | x :: rest =>
      match rest with
      | [] => x
      | _ :: _ => x ++ sep ++ join sep rest
      end
  end.

(** [s.replace(old, new)] for a non-empty [old]: every occurrence of
    [old], found left to right without overlap, becomes [new]. *)
Fixpoint replace_aux (old new : str) (skip : nat) (s : str) : str :=
  match s with
  | [] => []
  | c :: s' =>
      match skip with
      | S k => replace_aux old new k s'
      | O =>
          if startswith s old
          then new ++ replace_aux old new (length old - 1) s'
          else c :: replace_aux old new 0 s'
      end
  end.

Definition replace (s old new : str) : str := replace_aux old new 0 s.

(** [c.isspace()]: the code points with the Unicode White_Space property
    or bidirectional type WS, B or S. *)
Definition isspace (c : char) : bool :=
  ((9 <=? c) && (c <=? 13) || (28 <=? c) && (c <=? 32)
   || (c =? 133) || (c =? 160) || (c =? 5760)
   || (8192 <=? c) && (c <=? 8202)
   || (c =? 8232) || (c =? 8233) || (c =? 8239) || (c =? 8287)
   || (c =? 12288))%N.

Fixpoint lstrip_by (f : char -> bool) (s : str) : str :=
  match s with
  | [] => []
  | c :: s' => if f c then lstrip_by f s' else s
  end.

Definition rstrip_by (f : char -> bool) (s : str) : str :=
  rev (lstrip_by f (rev s)).

(** [s.strip()] *)
Definition strip (s : str) : str := rstrip_by isspace (lstrip_by isspace s).

(** [s.rstrip(chars)] *)
Definition rstrip (s chars : str) : str :=
  rstrip_by (fun c => existsb (N.eqb c) chars) s.

(** The longest prefix of [s] without a double quote: what the greedy
    negated class of the two patterns matches. *)
Fixpoint unquoted_run (s : str) : str :=
  match s with
  | [] => []
  | c :: s' => if (c =? dquote)%N then [] else c :: unquoted_run s'
  end.

(** A match, at the start of [s], of the pattern made of [kw], a double
    quote, a group of one or more characters other than a double quote,
    and a double quote; the result is the group.  The run is greedy, and
    giving characters back never helps, as the character after a shorter
    run is not a double quote. *)
Definition re_match_quoted (kw : str) (s : str) : option str :=
  if startswith s (kw ++ [dquote]) then
    let rest := skipn (length kw + 1) s in
    let name := unquoted_run rest in
    match name, skipn (length name) rest with
    | _ :: _, q :: _ => if (q =? dquote)%N then Some name else None
    | _, _ => None
    end
  else None.

(** [re.search] of that pattern in [s], returning group 1 of the
    leftmost match. *)
Fixpoint re_search_quoted (kw : str) (s : str) : option str :=
  match re_match_quoted kw s with
  | Some g => Some g
  | None =>
      match s with
      | [] => None
      | _ :: s' => re_search_quoted kw s'
      end
  end.

End Py.

(* ================================================================= *)
(** ** Outcomes *)

(** What running a piece of the script gives: a value, the [IndexError]
    of a list subscript out of range, or, for the loops, which the model
    runs on fuel, the fuel running out. *)
Inductive result (A : Type) : Type :=
| Ok (a : A)
| IndexError
| OutOfFuel.

Arguments Ok {A} a.
Arguments IndexError {A}.
Arguments OutOfFuel {A}.

Definition bind {A B : Type} (r : result A) (k : A -> result B) : result B :=
  match r with
  | Ok a => k a
  | IndexError => IndexError
  | OutOfFuel => OutOfFuel
  end.

Notation "'let*' x ':=' r 'in' k" := (bind r (fun x => k))
  (at level 10, x pattern, r at level 100, k at level 200).

(** [l[n]] *)
Definition subscript {A : Type} (l : list A) (n : nat) : result A :=
  match nth_error l n with
  | Some a => Ok a
  | None => IndexError
  end.

(* ================================================================= *)
(** ** The scanner *)

Module Migration.
Import Py.

Definition CREATE_TYPE : str := py "CREATE TYPE".
Definition CREATE_TABLE : str := py "CREATE TABLE".
Definition CREATE_TABLE_IF_NOT_EXISTS : str := py "CREATE TABLE IF NOT EXISTS".
Definition CREATE_INDEX : str := py "CREATE INDEX".
Definition CREATE_UNIQUE_INDEX : str := py "CREATE UNIQUE INDEX".
Definition INDEX : str := py "INDEX".
Definition INDEX_sp : str := py "INDEX ".
Definition INDEX_IF_NOT_EXISTS_sp : str := py "INDEX IF NOT EXISTS ".
Definition IF_NOT_EXISTS : str := py "IF NOT EXISTS".
Definition ALTER_TABLE : str := py "ALTER TABLE".
Definition ADD_CONSTRAINT : str := py "ADD CONSTRAINT".
Definition AS_ENUM : str := py "AS ENUM".

(** The literal text in front of the quoted name in the three regular
    expressions; each ends with a space. *)
Definition CREATE_TYPE_sp : str := py "CREATE TYPE ".
Definition ALTER_TABLE_sp : str := py "ALTER TABLE ".
Definition ADD_CONSTRAINT_sp : str := py "ADD CONSTRAINT ".

(** The f-string of the enum branch. *)
Definition enum_block (type_name enum_def : str) : str :=
  py "DO $$ BEGIN" ++ nl ::
  py "    CREATE TYPE " ++ dquote :: type_name ++ dquote ::
    py " AS ENUM " ++ enum_def ++ py ";" ++ nl ::
  py "EXCEPTION" ++ nl ::
  py "    WHEN duplicate_object THEN null;" ++ nl ::
  py "END $$;".

(** The f-string of the constraint branch. *)
Definition constraint_block (constraint_name stmt : str) : str :=
  py "DO $$" ++ nl ::
  py "BEGIN" ++ nl ::
  py "    IF NOT EXISTS (SELECT 1 FROM pg_constraint WHERE conname = " ++
    squote :: constraint_name ++ squote :: py ") THEN" ++ nl ::
  py "        " ++ stmt ++ nl ::
  py "    END IF;" ++ nl ::
  py "END" ++ nl ::
  py "$$;".

(** The inner loop of the enum and constraint branches:
    [while ';' not in stmt and i + 1 < len(lines):
         i += 1; stmt += '\n' + lines[i]]. *)
Fixpoint accumulate (fuel : nat) (lines : list str) (i : nat) (stmt : str)
  : result (nat * str) :=
  if negb (str_in [semicolon] stmt) && (i + 1 <? length lines) then
    match fuel with
    | O => OutOfFuel
    | S fuel' =>
        accumulate fuel' lines (i + 1) (stmt ++ nl :: nth (i + 1) lines [])
    end
  else Ok (i, stmt).

(** One turn of the outer loop, for a cursor [i < len(lines)]: the
    branch on [lines[i]], then [i += 1].  It gives the new cursor and the
    new [new_lines]. *)
Definition body (fuel : nat) (lines : list str) (i : nat)
  (new_lines : list str) : result (nat * list str) :=
  let line := nth i lines [] in
  if startswith (strip line) CREATE_TYPE then
    match re_search_quoted CREATE_TYPE_sp line with
    | Some type_name =>
        let* (i', stmt) := accumulate fuel lines i line in
        let* part := subscript (split stmt AS_ENUM) 1 in
        let enum_def := rstrip (strip part) [semicolon] in
        Ok (i' + 1, new_lines ++ [enum_block type_name enum_def])
    | None => Ok (i + 1, new_lines ++ [line])
    end
  else if startswith (strip line) CREATE_TABLE then
    let new_line := replace line CREATE_TABLE CREATE_TABLE_IF_NOT_EXISTS in
    Ok (i + 1, new_lines ++ [new_line])
  else if startswith (strip line) CREATE_INDEX
          || startswith (strip line) CREATE_UNIQUE_INDEX then
    if str_in INDEX line && negb (str_in IF_NOT_EXISTS line) then
      let parts := split line INDEX_sp in
      let* p0 := subscript parts 0 in
      let* p1 := subscript parts 1 in
      Ok (i + 1, new_lines ++ [p0 ++ INDEX_IF_NOT_EXISTS_sp ++ p1])
    else Ok (i + 1, new_lines ++ [line])
  else if startswith (strip line) ALTER_TABLE && str_in ADD_CONSTRAINT line then
    match re_search_quoted ALTER_TABLE_sp line,
          re_search_quoted ADD_CONSTRAINT_sp line with
    | Some table_name, Some constraint_name =>
        let* (i', stmt) := accumulate fuel lines i line in
        Ok (i' + 1, new_lines ++ [constraint_block constraint_name stmt])
    | _, _ => Ok (i + 1, new_lines ++ [line])
    end
  else Ok (i + 1, new_lines ++ [line]).

(** The outer loop [while i < len(lines): ...], giving the final
    [new_lines].  [inner] is the fuel of the inner loops. *)
Fixpoint loop (fuel inner : nat) (lines : list str) (i : nat)
  (new_lines : list str) : result (list str) :=
  if i <? length lines then
    match fuel with
    | O => OutOfFuel
    | S fuel' =>
        let* (i', new_lines') := body inner lines i new_lines in
        loop fuel' inner lines i' new_lines'
    end
  else Ok new_lines.

(** [make_safe] with the fuel of its loops explicit. *)
Definition make_safe_fuel (fuel : nat) (sql_content : str) : result str :=
  let lines := split sql_content [nl] in
  let* new_lines := loop fuel fuel lines 0 [] in
  Ok (join [nl] new_lines).

(** [make_safe(sql_content)].  The number of lines is fuel enough for
    every loop ([make_safe_fuel_enough] below). *)
Definition make_safe (sql_content : str) : result str :=
  make_safe_fuel (length (split sql_content [nl])) sql_content.

(** *** What the properties below speak about *)

(** The four conditions of the [if]/[elif] chain of [body]. *)
Definition is_create_type (line : str) : bool :=
  startswith (strip line) CREATE_TYPE.

Definition is_create_table (line : str) : bool :=
  startswith (strip line) CREATE_TABLE.

Definition is_create_index (line : str) : bool :=
  startswith (strip line) CREATE_INDEX
  || startswith (strip line) CREATE_UNIQUE_INDEX.

Definition is_add_constraint (line : str) : bool :=
  startswith (strip line) ALTER_TABLE && str_in ADD_CONSTRAINT line.

(** A line that matches one of the recognized leading patterns. *)
Definition recognized (line : str) : bool :=
  is_create_type line || is_create_table line
  || is_create_index line || is_add_constraint line.

(** [lines[i:j+1]] *)
Definition slice (lines : list str) (i j : nat) : list str :=
  firstn (j + 1 - i) (skipn i lines).

(** The cursor and [new_lines] at the head of the outer loop after [n]
    turns, started at the cursor [i] with [new_lines]; once the cursor is
    past the last line the loop has ended and nothing changes. *)
Fixpoint turns (n : nat) (lines : list str) (i : nat) (new_lines : list str)
  : result (nat * list str) :=
  match n with
  | O => Ok (i, new_lines)
  | S n' =>
      if i <? length lines then
        let* (i', new_lines') := body (length lines) lines i new_lines in
        turns n' lines i' new_lines'
      else Ok (i, new_lines)
  end.

(** A line at which the enum branch accumulates a statement: its trimmed
    form starts with [CREATE TYPE] and a quoted type name is found. *)
Definition is_enum_statement (line : str) : bool :=
  is_create_type line &&
  match re_search_quoted CREATE_TYPE_sp line with
  | Some _ => true
  | None => false
  end.

(** The lines of the script from the cursor [i] on, without the lines of
    the enum statements: a turn of the outer loop that moves the cursor
    from [i] to [i'] goes over the lines [i..i'-1], which are left out
    when line [i] opens an enum statement and kept otherwise. *)
Fixpoint outside_enums (fuel inner : nat) (lines : list str) (i : nat)
  : list str :=
  if i <? length lines then
    match fuel with
    | O => []
    | S fuel' =>
        match body inner lines i [] with
        | Ok (i', _) =>
            (if is_enum_statement (nth i lines []) then []
             else slice lines i (i' - 1))
            ++ outside_enums fuel' inner lines i'
        | _ => []
        end
    end
  else [].

(** The lines of [sql_content] that are not part of an enum statement,
    in order. *)
Definition lines_outside_enums (sql_content : str) : list str :=
  let lines := split sql_content [nl] in
  outside_enums (length lines) (length lines) lines 0.

Definition str_eqb (s t : str) : bool :=
  if list_eq_dec N.eq_dec s t then true else false.

(** [xs] is [ys] with some elements left out: same contents, same
    relative order. *)
Inductive subseq : list str -> list str -> Prop :=
| subseq_nil : subseq [] []
| subseq_skip x xs ys : subseq xs ys -> subseq xs (x :: ys)
| subseq_keep x xs ys : subseq xs ys -> subseq (x :: xs) (x :: ys).

Fixpoint subseqb (xs ys : list str) : bool :=
  match ys with
  | [] => match xs with [] => true | _ :: _ => false end
  | y :: ys' =>
      match xs with
      | [] => true
      | x :: xs' =>
          if str_eqb x y then subseqb xs' ys' else subseqb xs ys'
      end
  end.

(** The lines of a list that match no recognized leading pattern. *)
Definition unrecognized (lines : list str) : list str :=
  filter (fun l => negb (recognized l)) lines.

(** Line-order preservation read over all the lines of the input: when
    [make_safe] returns, the unrecognized lines of [sql_content] are
    among the lines of the output, in the same order. *)
Definition unrecognized_lines_kept (sql_content : str) : Prop :=
  forall out,
    make_safe sql_content = Ok out ->
    subseq (unrecognized (split sql_content [nl])) (split out [nl]).

(** Whether an outcome is an end of the run (a value or an exception),
    not the model's fuel running out. *)
Definition terminated {A : Type} (r : result A) : bool :=
  match r with
  | OutOfFuel => false
  | _ => true
  end.

End Migration.

(* ================================================================= *)
(** ** Sample scripts *)

Module Samples.
Import Py Migration.

(** A double-quoted identifier. *)
Definition quoted (name : string) : str := dquote :: py name ++ [dquote].

(** The four rewrite examples and their expected outputs. *)
Definition color_enum : str :=
  py "CREATE TYPE " ++ quoted "Color" ++ py " AS ENUM ('RED', 'BLUE');".

Definition color_enum_safe : str :=
  py "DO $$ BEGIN" ++ nl ::
  py "    CREATE TYPE " ++ quoted "Color" ++ py " AS ENUM ('RED', 'BLUE');" ++ nl ::
  py "EXCEPTION" ++ nl ::
  py "    WHEN duplicate_object THEN null;" ++ nl ::
  py "END $$;".

Definition users_table : str :=
  py "CREATE TABLE " ++ quoted "users" ++ py " (id INT);".

Definition users_table_safe : str :=
  py "CREATE TABLE IF NOT EXISTS " ++ quoted "users" ++ py " (id INT);".

Definition idx_email : str :=
  py "CREATE UNIQUE INDEX " ++ quoted "idx_email" ++ py " ON " ++
  quoted "users" ++ py " (" ++ quoted "email" ++ py ");".

Definition idx_email_safe : str :=
  py "CREATE UNIQUE INDEX IF NOT EXISTS " ++ quoted "idx_email" ++ py " ON " ++
  quoted "users" ++ py " (" ++ quoted "email" ++ py ");".

Definition fk_user : str :=
  py "ALTER TABLE " ++ quoted "orders" ++ py " ADD CONSTRAINT " ++
  quoted "fk_user" ++ py " FOREIGN KEY (" ++ quoted "user_id" ++
  py ") REFERENCES " ++ quoted "users" ++ py "(" ++ quoted "id" ++ py ");".

Definition fk_user_safe : str :=
  py "DO $$" ++ nl ::
  py "BEGIN" ++ nl ::
  py "    IF NOT EXISTS (SELECT 1 FROM pg_constraint WHERE conname = 'fk_user') THEN" ++ nl ::
  py "        " ++ fk_user ++ nl ::
  py "    END IF;" ++ nl ::
  py "END" ++ nl ::
  py "$$;".



(** A table that is guarded already. *)
Definition guarded_table : str :=
  py "CREATE TABLE IF NOT EXISTS " ++ quoted "users" ++ py " (id INT);".

(** A script whose second line, indented, holds two table statements, and
    what the script gives for it. *)
Definition two_tables : list str :=
  [ py "-- tables";
    py "  CREATE TABLE " ++ quoted "a" ++ py " AS SELECT 1; CREATE TABLE " ++
      quoted "b" ++ py " (x INT);";
    py "SELECT 1;" ].

Definition two_tables_safe : list str :=
  [ py "-- tables";
    py "  CREATE TABLE IF NOT EXISTS " ++ quoted "a" ++
      py " AS SELECT 1; CREATE TABLE IF NOT EXISTS " ++
      quoted "b" ++ py " (x INT);";
    py "SELECT 1;" ].

(** A constraint whose statement is on two lines, with a line before and
    a line after. *)
Definition fk_script : list str :=
  [ py "-- constraints";
    py "ALTER TABLE " ++ quoted "orders" ++ py " ADD CONSTRAINT " ++ quoted "fk_user";
    py "    FOREIGN KEY (" ++ quoted "user_id" ++ py ") REFERENCES " ++
      quoted "users" ++ py "(" ++ quoted "id" ++ py ");";
    py "SELECT 1;" ].

(** What the script gives for [fk_script]. *)
Definition fk_script_safe : list str :=
  [ py "-- constraints";
    constraint_block (py "fk_user") (join [nl] (slice fk_script 1 2));
    py "SELECT 1;" ].

(** An [ALTER TABLE ... ADD CONSTRAINT] line whose constraint name is not
    quoted. *)
Definition fk_unquoted : str :=
  py "ALTER TABLE " ++ quoted "orders" ++ py " ADD CONSTRAINT fk_user".

(** A script without any recognized line; its comment and its [INSERT]
    hold keyword sequences away from the start of the line. *)
Definition plain_script : str :=
  py "-- CREATE TABLE is done by hand" ++ nl ::
  py "INSERT INTO log VALUES ('CREATE INDEX done');" ++ nl ::
  py "  DROP TABLE old;" ++ [nl].

(** A composite type: [CREATE TYPE] with a quoted name and no
    [AS ENUM]. *)
Definition pair_type : str :=
  py "CREATE TYPE " ++ quoted "Pair" ++ py " AS (a int, b int);".

(** An enum declared with the keyword in lower case. *)
Definition mood_type : str :=
  py "CREATE TYPE " ++ quoted "Mood" ++ py " AS enum ('sad', 'ok');".

(** An index statement that breaks the line after the keyword. *)
Definition bare_index : str :=
  py "CREATE INDEX" ++ nl :: py "    " ++ quoted "idx" ++ py " ON " ++
  quoted "t" ++ py " (" ++ quoted "c" ++ py ");".

(** An index statement followed by a comment that names the keyword
    again, what the script gives for it, and the line with the guard
    inserted and nothing else changed. *)
Definition idx_commented : str :=
  py "CREATE INDEX " ++ quoted "idx" ++ py " ON " ++ quoted "t" ++
  py " (" ++ quoted "c" ++ py "); -- INDEX on c".

Definition idx_commented_out : str :=
  py "CREATE INDEX IF NOT EXISTS " ++ quoted "idx" ++ py " ON " ++ quoted "t" ++
  py " (" ++ quoted "c" ++ py "); -- ".

Definition idx_commented_safe : str :=
  py "CREATE INDEX IF NOT EXISTS " ++ quoted "idx" ++ py " ON " ++ quoted "t" ++
  py " (" ++ quoted "c" ++ py "); -- INDEX on c".

(** An enum whose [AS ENUM] clause is on the second line, and what the
    script gives for it. *)
Definition split_enum : str :=
  py "CREATE TYPE " ++ quoted "C" ++ nl :: py "AS ENUM ('A');".

Definition split_enum_out : str :=
  py "DO $$ BEGIN" ++ nl ::
  py "    CREATE TYPE " ++ quoted "C" ++ py " AS ENUM ('A');" ++ nl ::
  py "EXCEPTION" ++ nl ::
  py "    WHEN duplicate_object THEN null;" ++ nl ::
  py "END $$;".

End Samples.

(* ================================================================= *)
(** ** Notions for whole scripts *)

Module Notions.
Import Py Migration.

(** [line] is white space, then [kw], then anything. *)
Definition leading (kw line : str) : Prop :=
  exists ws rest, line = ws ++ kw ++ rest /\ forallb isspace ws = true.

(** A line at which the constraint branch accumulates a statement: its
    trimmed form starts with [ALTER TABLE], it holds [ADD CONSTRAINT] and
    both quoted names are found. *)
Definition is_constraint_statement (line : str) : bool :=
  is_add_constraint line &&
  match re_search_quoted ALTER_TABLE_sp line,
        re_search_quoted ADD_CONSTRAINT_sp line with
  | Some _, Some _ => true
  | _, _ => false
  end.

(** A line at which one of the two accumulating branches is taken. *)
Definition opens_statement (line : str) : bool :=
  is_enum_statement line || is_constraint_statement line.

(** Every line that opens a statement holds a semicolon or is followed,
    in [lines], by a line that holds one. *)
Fixpoint statements_terminated (lines : list str) : bool :=
  match lines with
  | [] => true
  | l :: rest =>
      (negb (opens_statement l) || existsb (str_in [semicolon]) lines)
      && statements_terminated rest
  end.

(** A line on which no subscript of [body] can fail: if it opens an enum
    statement, it holds the semicolon and [AS ENUM] itself; if it is an
    index line, it holds the guard or the keyword followed by a space. *)
Definition subscripts_safe (line : str) : bool :=
  (negb (is_enum_statement line)
   || str_in [semicolon] line && str_in AS_ENUM line)
  && (negb (is_create_index line)
      || str_in IF_NOT_EXISTS line || str_in INDEX_sp line).

(** [make_safe] on each line taken as a script of its own, in order;
    the first failure is the failure of the whole. *)
Fixpoint each_line (lines : list str) : result (list str) :=
  match lines with
  | [] => Ok []
  | l :: rest =>
      let* o := make_safe l in
      let* os := each_line rest in
      Ok (o :: os)
  end.

(** A migration with one statement of each kind; the table and the
    constraint are on several lines. *)
Definition migration : list str :=
  [ py "-- CreateEnum";
    py "CREATE TYPE " ++ Samples.quoted "Role" ++ py " AS ENUM ('USER', 'ADMIN');";
    py "";
    py "CREATE TABLE " ++ Samples.quoted "users" ++ py " (";
    py "    " ++ Samples.quoted "id" ++ py " TEXT NOT NULL,";
    py "    " ++ Samples.quoted "role" ++ py " " ++ Samples.quoted "Role" ++
      py " NOT NULL";
    py ");";
    py "CREATE UNIQUE INDEX " ++ Samples.quoted "users_id_key" ++ py " ON " ++
      Samples.quoted "users" ++ py "(" ++ Samples.quoted "id" ++ py ");";
    py "ALTER TABLE " ++ Samples.quoted "posts" ++ py " ADD CONSTRAINT " ++
      Samples.quoted "posts_fk" ++ py " FOREIGN KEY (" ++
      Samples.quoted "author" ++ py ")";
    py "    REFERENCES " ++ Samples.quoted "users" ++ py "(" ++
      Samples.quoted "id" ++ py ");";
    py "" ].

(** The opening line of a constraint statement, without semicolon. *)
Definition fk_open : str :=
  py "ALTER TABLE " ++ Samples.quoted "orders" ++ py " ADD CONSTRAINT " ++
  Samples.quoted "fk_user" ++ py " FOREIGN KEY (" ++
  Samples.quoted "user_id" ++ py ")".

End Notions.

(* ================================================================= *)
(** ** Facts about the string primitives *)

Module PyFacts.
Import Py.

Lemma startswith_nil (s : str) : startswith s [] = true.
Proof. destruct s; reflexivity. Qed.

Lemma startswith_app (p t : str) : startswith (p ++ t) p = true.
Proof.
  induction p as [|a p IH]; simpl.
  - apply startswith_nil.
  - now rewrite N.eqb_refl, IH.
Qed.

Lemma startswith_inv (p s : str) :
  startswith s p = true -> exists t, s = p ++ t.
Proof.
  revert s; induction p as [|a p IH]; intros s H.
  - now exists s.
  - destruct s as [|b s]; simpl in H; [discriminate|].
    apply andb_true_iff in H as [Hab Hs].
    apply N.eqb_eq in Hab; subst b.
    destruct (IH _ Hs) as [t ->].
    now exists t.
Qed.

Lemma str_in_startswith (sub s : str) :
  startswith s sub = true -> str_in sub s = true.
Proof. destruct s; simpl; now intros ->. Qed.

Lemma str_in_app (sub a b : str) : str_in sub (a ++ sub ++ b) = true.
Proof.
  induction a as [|c a IH]; simpl.
  - apply str_in_startswith, startswith_app.
  - rewrite IH; apply orb_true_r.
Qed.

Lemma skipn_cons_nth {A : Type} (d : A) (l : list A) (i : nat) :
  i < length l -> skipn i l = nth i l d :: skipn (S i) l.
Proof.
  revert i; induction l as [|x l IH]; intros i Hi; simpl in Hi; [lia|].
  destruct i as [|i]; [reflexivity|].
  simpl. apply IH. lia.
Qed.

(** A prefix [p] of [u ++ x] is a prefix of [u], or runs over the end of
    [u] and goes on in [x]. *)
Lemma startswith_app_inv (u x p : str) :
  startswith (u ++ x) p = true ->
  startswith u p = true \/
  (length u < length p /\ startswith x (skipn (length u) p) = true).
Proof.
  revert p; induction u as [|c u IH]; intros p H.
  - destruct p as [|d p]; [now left|]. right. split; [simpl; lia|exact H].
  - destruct p as [|d p]; [now left|].
    simpl in H. apply andb_true_iff in H as [Hc H].
    destruct (IH _ H) as [Hu|[Hl Hx]].
    + left. simpl. now rewrite Hc, Hu.
    + right. split; [simpl; lia|exact Hx].
Qed.

Section Separator.

(** A non-empty separator, as [split] and [replace] require. *)
Variables (a : char) (sep' : str).
Let sep : str := a :: sep'.

Lemma split_aux_skip (k : nat) (s : str) :
  split_aux sep k s = split_aux sep 0 (skipn k s).
Proof.
  revert k; induction s as [|c s IH]; intros [|k]; try reflexivity.
  simpl skipn. rewrite <- IH. reflexivity.
Qed.

(** The two equations of [split] on a non-empty string. *)
Lemma split_match (t : str) :
  split (sep ++ t) sep = [] :: split t sep.
Proof.
  unfold split. change (sep ++ t) with (a :: (sep' ++ t)).
  cbn [split_aux]. change (a :: sep' ++ t) with (sep ++ t).
  rewrite startswith_app, split_aux_skip.
  replace (length sep - 1) with (length sep') by (simpl; lia).
  now rewrite skipn_app, skipn_all, Nat.sub_diag.
Qed.

Lemma split_step (c : char) (s : str) :
  startswith (c :: s) sep = false ->
  split (c :: s) sep = cons_head c (split s sep).
Proof. unfold split; cbn [split_aux]; now intros ->. Qed.

Lemma split_not_nil (s : str) : split s sep <> [].
Proof.
  unfold split. generalize 0.
  induction s as [|c s IH]; intros k; simpl; [discriminate|].
  destruct k as [|k]; [|apply IH].
  destruct (_ && _); [discriminate|].
  specialize (IH 0). destruct (split_aux _ 0 s); [contradiction|discriminate].
Qed.

Lemma join_cons_head (c : char) (l : list str) :
  l <> [] -> join sep (cons_head c l) = c :: join sep l.
Proof. destruct l as [|p [|p' ps]]; [contradiction| |]; reflexivity. Qed.

Lemma join_cons (j x : str) (l : list str) :
  l <> [] -> join j (x :: l) = x ++ j ++ join j l.
Proof. destruct l; [contradiction|reflexivity]. Qed.

(** Induction on a string along the scan of [split]: either the
    separator is in front and the scan resumes after it, or one
    character is passed. *)
Lemma scan_ind (P : str -> Prop) :
  P [] ->
  (forall t, P t -> P (sep ++ t)) ->
  (forall c s, startswith (c :: s) sep = false -> P s -> P (c :: s)) ->
  forall s, P s.
Proof.
  intros Hnil Hmatch Hstep s.
  remember (length s) as n eqn:Hn.
  revert s Hn; induction n as [n IH] using lt_wf_ind; intros s ->.
  destruct s as [|c s]; [exact Hnil|].
  destruct (startswith (c :: s) sep) eqn:E.
  - destruct (startswith_inv _ _ E) as [t Ht]. rewrite Ht.
    apply Hmatch, (IH (length t)); [|reflexivity].
    rewrite Ht, length_app; simpl; lia.
  - apply Hstep; [exact E|].
    apply (IH (length s)); [simpl; lia|reflexivity].
Qed.

(** [sep.join(s.split(sep)) == s] *)
Lemma join_split (s : str) : join sep (split s sep) = s.
Proof.
  induction s as [|t IH|c s E IH] using scan_ind.
  - reflexivity.
  - rewrite split_match, join_cons by apply split_not_nil.
    now rewrite IH.
  - rewrite split_step, join_cons_head by (assumption || apply split_not_nil).
    now rewrite IH.
Qed.

Lemma replace_aux_skip (new : str) (k : nat) (s : str) :
  replace_aux sep new k s = replace_aux sep new 0 (skipn k s).
Proof.
  revert k; induction s as [|c s IH]; intros [|k]; try reflexivity.
  simpl skipn. rewrite <- IH. reflexivity.
Qed.

Lemma replace_match (new t : str) :
  replace (sep ++ t) sep new = new ++ replace t sep new.
Proof.
  unfold replace. change (sep ++ t) with (a :: (sep' ++ t)).
  cbn [replace_aux]. change (a :: sep' ++ t) with (sep ++ t).
  rewrite startswith_app, replace_aux_skip.
  replace (length sep - 1) with (length sep') by (simpl; lia).
  now rewrite skipn_app, skipn_all, Nat.sub_diag.
Qed.

Lemma replace_step (new : str) (c : char) (s : str) :
  startswith (c :: s) sep = false ->
  replace (c :: s) sep new = c :: replace s sep new.
Proof. unfold replace; cbn [replace_aux]; now intros ->. Qed.

(** [s.replace(old, new) == new.join(s.split(old))] *)
Lemma replace_join_split (new s : str) :
  replace s sep new = join new (split s sep).
Proof.
  induction s as [|t IH|c s E IH] using scan_ind.
  - reflexivity.
  - rewrite replace_match, split_match, join_cons by apply split_not_nil.
    now rewrite IH.
  - rewrite replace_step, split_step by assumption.
    rewrite IH. generalize (split_not_nil s).
    destruct (split s sep) as [|p [|p' ps]]; [contradiction| |]; reflexivity.
Qed.

(** A string without the separator is a single piece and is left as
    it is by [replace]. *)
Lemma split_absent (s : str) :
  str_in sep s = false -> split s sep = [s].
Proof.
  induction s as [|c s IH]; [reflexivity|].
  simpl str_in. intros [E H]%orb_false_iff.
  rewrite split_step by exact E. now rewrite IH.
Qed.

Lemma replace_absent (new s : str) :
  str_in sep s = false -> replace s sep new = s.
Proof.
  intros H. now rewrite replace_join_split, split_absent.
Qed.

Lemma startswith_head_diff (c : char) (s : str) :
  c <> a -> startswith (c :: s) sep = false.
Proof.
  intros Hc. simpl. destruct (N.eqb_spec a c); [congruence|reflexivity].
Qed.

(** When the first character of the separator occurs nowhere else in
    it, two occurrences cannot overlap: an occurrence that starts inside
    [u] and ends in a following [sep] is within [u]. *)
Hypothesis first_unique : existsb (N.eqb a) sep' = false.

Lemma occurrence_no_overlap (c : char) (u x : str) :
  startswith (c :: u) sep = false ->
  startswith ((c :: u) ++ sep ++ x) sep = false.
Proof.
  intros Hu. destruct (startswith (_ ++ _) sep) eqn:E; [|reflexivity].
  apply startswith_app_inv in E as [E|[Hl E]]; [congruence|].
  exfalso. simpl in Hl. apply Nat.succ_lt_mono in Hl.
  change (skipn (length (c :: u)) sep) with (skipn (length u) sep') in E.
  rewrite (skipn_cons_nth 0%N sep' _ Hl) in E.
  simpl in E. apply andb_true_iff in E as [E _]. apply N.eqb_eq in E.
  assert (Hin : existsb (N.eqb a) sep' = true).
  { apply existsb_exists. exists (nth (length u) sep' 0%N). split.
    - now apply nth_In.
    - rewrite E. apply N.eqb_refl. }
  congruence.
Qed.

(** Then every occurrence is replaced, wherever it stands. *)
Lemma replace_app_occurrence (new u x : str) :
  replace (u ++ sep ++ x) sep new =
  replace u sep new ++ new ++ replace x sep new.
Proof.
  induction u as [|t IH|c u E IH] using scan_ind.
  - apply replace_match.
  - rewrite <- app_assoc, !replace_match, IH. now rewrite app_assoc.
  - pose proof (occurrence_no_overlap c u x E) as E'.
    change ((c :: u) ++ sep ++ x) with (c :: (u ++ sep ++ x)) in *.
    rewrite (replace_step new _ _ E'), (replace_step new _ _ E).
    now rewrite IH.
Qed.

End Separator.

(** *** Splitting on one character *)

Lemma split_app_char (c : char) (x y : str) :
  split (x ++ c :: y) [c] = split x [c] ++ split y [c].
Proof.
  induction x as [|d x IH].
  - apply (split_match c [] y).
  - destruct (N.eqb_spec c d) as [<-|Hd].
    + change ((c :: x) ++ c :: y) with ([c] ++ (x ++ c :: y)).
      change (c :: x) with ([c] ++ x).
      now rewrite !split_match, IH.
    + assert (E : forall t, startswith (d :: t) [c] = false).
      { intros t. apply startswith_head_diff. congruence. }
      change ((d :: x) ++ c :: y) with (d :: (x ++ c :: y)).
      rewrite !split_step, IH by apply E.
      generalize (split_not_nil c [] x).
      destruct (split x [c]); [contradiction|reflexivity].
Qed.

Lemma split_join_char (c : char) (l : list str) :
  l <> [] ->
  split (join [c] l) [c] = concat (map (fun x => split x [c]) l).
Proof.
  induction l as [|x l IH]; [contradiction|]. intros _.
  destruct l as [|y l].
  - simpl. now rewrite app_nil_r.
  - rewrite join_cons by discriminate.
    change (x ++ [c] ++ join [c] (y :: l)) with (x ++ c :: join [c] (y :: l)).
    rewrite split_app_char, IH by discriminate. reflexivity.
Qed.

(** The pieces of a split on [c] do not hold [c]. *)
Lemma split_pieces_no_char (c : char) (s : str) :
  Forall (fun p => str_in [c] p = false) (split s [c]).
Proof.
  induction s as [|t IH|d s E IH] using (scan_ind c []).
  - now constructor.
  - rewrite split_match. now constructor.
  - rewrite split_step by exact E.
    generalize (split_not_nil c [] s).
    destruct IH as [|p ps Hp Hps]; [contradiction|]. intros _.
    constructor; [|exact Hps].
    destruct (N.eqb_spec c d) as [<-|Hd].
    + change (c :: s) with ([c] ++ s) in E.
      now rewrite startswith_app in E.
    + change (str_in [c] (d :: p))
        with (startswith (d :: p) [c] || str_in [c] p).
      rewrite (startswith_head_diff c [] d p) by congruence. exact Hp.
Qed.

End PyFacts.

(* ================================================================= *)
(** ** Facts about the scanner *)

Module MigrationFacts.
Import Py PyFacts Migration.

(** *** Slices *)

Lemma skipn_nth_cons (lines : list str) (i : nat) :
  i < length lines -> skipn i lines = nth i lines [] :: skipn (S i) lines.
Proof.
  revert i; induction lines as [|l lines IH]; intros i Hi; simpl in Hi; [lia|].
  destruct i as [|i]; [reflexivity|].
  simpl. apply IH. lia.
Qed.

Lemma firstn_snoc (l : list str) (n : nat) :
  n < length l -> firstn (S n) l = firstn n l ++ [nth n l []].
Proof.
  revert n; induction l as [|x l IH]; intros n Hn; simpl in Hn; [lia|].
  destruct n as [|n]; [reflexivity|].
  change (x :: firstn (S n) l = x :: (firstn n l ++ [nth n l []])).
  f_equal. apply IH. lia.
Qed.

Lemma nth_skipn_add (l : list str) (i n : nat) :
  nth n (skipn i l) [] = nth (i + n) l [].
Proof.
  revert l; induction i as [|i IH]; intros l; [reflexivity|].
  destruct l as [|x l]; [now destruct n|]. apply IH.
Qed.

Lemma slice_one (lines : list str) (i : nat) :
  i < length lines -> slice lines i i = [nth i lines []].
Proof.
  intros Hi. unfold slice. replace (i + 1 - i) with 1 by lia.
  now rewrite skipn_nth_cons by assumption.
Qed.

Lemma slice_snoc (lines : list str) (i j : nat) :
  i <= j + 1 -> j + 1 < length lines ->
  slice lines i (j + 1) = slice lines i j ++ [nth (j + 1) lines []].
Proof.
  intros Hij Hj. unfold slice.
  replace (j + 1 + 1 - i) with (S (j + 1 - i)) by lia.
  rewrite firstn_snoc by (rewrite length_skipn; lia).
  rewrite nth_skipn_add. do 3 f_equal. lia.
Qed.

Lemma slice_not_nil (lines : list str) (i j : nat) :
  i <= j -> i < length lines -> slice lines i j <> [].
Proof.
  intros Hij Hi. unfold slice.
  rewrite skipn_nth_cons by assumption.
  replace (j + 1 - i) with (S (j - i)) by lia. discriminate.
Qed.

Lemma join_snoc (sep : str) (l : list str) (x : str) :
  l <> [] -> join sep (l ++ [x]) = join sep l ++ sep ++ x.
Proof.
  induction l as [|y l IH]; [contradiction|]. intros _.
  destruct l as [|z l]; [reflexivity|].
  change (y ++ sep ++ join sep ((z :: l) ++ [x])
          = (y ++ sep ++ join sep (z :: l)) ++ sep ++ x).
  rewrite IH by discriminate. now rewrite <- !app_assoc.
Qed.

(** *** The inner loop *)

Lemma accumulate_eq (fuel : nat) (lines : list str) (i : nat) (stmt : str) :
  accumulate fuel lines i stmt =
  if negb (str_in [semicolon] stmt) && (i + 1 <? length lines) then
    match fuel with
    | O => OutOfFuel
    | S fuel' =>
        accumulate fuel' lines (i + 1) (stmt ++ nl :: nth (i + 1) lines [])
    end
  else Ok (i, stmt).
Proof. destruct fuel; reflexivity. Qed.

(** The inner loop only moves the cursor forward. *)
Lemma accumulate_advances (fuel : nat) (lines : list str) :
  forall i stmt j stmt',
    accumulate fuel lines i stmt = Ok (j, stmt') -> i <= j.
Proof.
  induction fuel as [|fuel IH]; intros i stmt j stmt'; rewrite accumulate_eq;
    destruct (_ && _); try discriminate.
  - intros [= <- _]; lia.
  - intros H%IH; lia.
  - intros [= <- _]; lia.
Qed.

(** With the cursor [i] inside the script and fuel for the lines that
    are left, the inner loop ends. *)
Lemma accumulate_total (fuel : nat) (lines : list str) :
  forall i stmt,
    length lines <= fuel + i + 1 ->
    exists j stmt', accumulate fuel lines i stmt = Ok (j, stmt').
Proof.
  induction fuel as [|fuel IH]; intros i stmt Hf; rewrite accumulate_eq;
    destruct (negb _ && _) eqn:E; eauto.
  - apply andb_true_iff in E as [_ E]. apply Nat.ltb_lt in E. lia.
  - apply IH. lia.
Qed.

(** More fuel does not change what the inner loop gives. *)
Lemma accumulate_mono (fuel fuel' : nat) (lines : list str) :
  fuel <= fuel' ->
  forall i stmt,
    terminated (accumulate fuel lines i stmt) = true ->
    accumulate fuel' lines i stmt = accumulate fuel lines i stmt.
Proof.
  revert fuel'; induction fuel as [|fuel IH]; intros fuel' Hle i stmt;
    rewrite (accumulate_eq fuel'), (accumulate_eq _ lines i stmt);
    destruct (_ && _); try reflexivity; try discriminate.
  destruct fuel' as [|fuel']; [lia|].
  apply IH. lia.
Qed.

(** What the inner loop computes: started at line [i] with the lines
    [i0..i] joined, it stops at the first [j >= i] such that the lines
    [i0..j] joined contain a semicolon, or at the last line. *)
Lemma accumulate_spec (fuel : nat) (lines : list str) (i0 : nat) :
  forall i stmt j stmt',
    i0 <= i < length lines ->
    stmt = join [nl] (slice lines i0 i) ->
    accumulate fuel lines i stmt = Ok (j, stmt') ->
    i <= j < length lines /\
    stmt' = join [nl] (slice lines i0 j) /\
    (str_in [semicolon] stmt' = true \/ j + 1 = length lines) /\
    (forall k, i <= k < j ->
               str_in [semicolon] (join [nl] (slice lines i0 k)) = false).
Proof.
  assert (Hstop : forall i stmt,
             negb (str_in [semicolon] stmt) && (i + 1 <? length lines) = false ->
             str_in [semicolon] stmt = true \/ i + 1 = length lines \/
             length lines <= i).
  { intros i stmt [E|E]%andb_false_iff.
    - left. now apply negb_false_iff.
    - apply Nat.ltb_ge in E. lia. }
  induction fuel as [|fuel IH]; intros i stmt j stmt' Hi Hstmt;
    rewrite accumulate_eq; destruct (negb _ && _) eqn:E; try discriminate.
  - intros [= <- <-].
    split; [lia|]. split; [assumption|]. split; [|intros k Hk; lia].
    destruct (Hstop _ _ E) as [H|[H|H]]; auto; lia.
  - apply andb_true_iff in E as [Es El].
    apply negb_true_iff in Es. apply Nat.ltb_lt in El.
    intros H. apply IH in H as (Hj & Hs & Hend & Hno).
    + split; [lia|]. split; [assumption|]. split; [assumption|].
      intros k Hk. destruct (Nat.eq_dec k i) as [->|Hne].
      * now rewrite <- Hstmt.
      * apply Hno. lia.
    + lia.
    + rewrite slice_snoc, join_snoc by (lia || apply slice_not_nil; lia).
      now rewrite Hstmt.
  - intros [= <- <-].
    split; [lia|]. split; [assumption|]. split; [|intros k Hk; lia].
    destruct (Hstop _ _ E) as [H|[H|H]]; auto; lia.
Qed.

(** *** The leading keywords exclude one another *)

Lemma create_table_not_type (s : str) :
  startswith s CREATE_TABLE = true -> startswith s CREATE_TYPE = false.
Proof. intros [t ->]%startswith_inv. reflexivity. Qed.

Lemma create_index_not_type (s : str) :
  startswith s CREATE_INDEX || startswith s CREATE_UNIQUE_INDEX = true ->
  startswith s CREATE_TYPE = false /\ startswith s CREATE_TABLE = false.
Proof.
  intros [H|H]%orb_true_iff; apply startswith_inv in H as [t ->];
    split; reflexivity.
Qed.

Lemma alter_table_not_create (s : str) :
  startswith s ALTER_TABLE = true ->
  startswith s CREATE_TYPE = false /\ startswith s CREATE_TABLE = false /\
  startswith s CREATE_INDEX || startswith s CREATE_UNIQUE_INDEX = false.
Proof. intros [t ->]%startswith_inv. repeat split; reflexivity. Qed.

(** *** One turn of the outer loop, branch by branch *)

Section Body.

Variables (fuel : nat) (lines : list str) (i : nat) (new_lines : list str).
Let line : str := nth i lines [].

Lemma body_malformed_type :
  is_create_type line = true ->
  re_search_quoted CREATE_TYPE_sp line = None ->
  body fuel lines i new_lines = Ok (i + 1, new_lines ++ [line]).
Proof.
  unfold is_create_type, body; cbv zeta; fold line.
  now intros -> ->.
Qed.

Lemma body_create_type (type_name : str) :
  is_create_type line = true ->
  re_search_quoted CREATE_TYPE_sp line = Some type_name ->
  body fuel lines i new_lines =
  let* (i', stmt) := accumulate fuel lines i line in
  let* part := subscript (split stmt AS_ENUM) 1 in
  Ok (i' + 1,
      new_lines ++
      [enum_block type_name (rstrip (strip part) [semicolon])]).
Proof.
  unfold is_create_type, body; cbv zeta; fold line.
  now intros -> ->.
Qed.

Lemma body_create_table :
  is_create_table line = true ->
  body fuel lines i new_lines =
  Ok (i + 1,
      new_lines ++ [replace line CREATE_TABLE CREATE_TABLE_IF_NOT_EXISTS]).
Proof.
  unfold is_create_table, body; cbv zeta; fold line.
  intros H. now rewrite (create_table_not_type _ H), H.
Qed.

Lemma body_create_index :
  is_create_index line = true ->
  body fuel lines i new_lines =
  if str_in INDEX line && negb (str_in IF_NOT_EXISTS line) then
    let parts := split line INDEX_sp in
    let* p0 := subscript parts 0 in
    let* p1 := subscript parts 1 in
    Ok (i + 1, new_lines ++ [p0 ++ INDEX_IF_NOT_EXISTS_sp ++ p1])
  else Ok (i + 1, new_lines ++ [line]).
Proof.
  unfold is_create_index, body; cbv zeta; fold line.
  intros H. destruct (create_index_not_type _ H) as [-> ->].
  now rewrite H.
Qed.

Lemma body_add_constraint :
  is_add_constraint line = true ->
  body fuel lines i new_lines =
  match re_search_quoted ALTER_TABLE_sp line,
        re_search_quoted ADD_CONSTRAINT_sp line with
  | Some table_name, Some constraint_name =>
      let* (i', stmt) := accumulate fuel lines i line in
      Ok (i' + 1, new_lines ++ [constraint_block constraint_name stmt])
  | _, _ => Ok (i + 1, new_lines ++ [line])
  end.
Proof.
  unfold is_add_constraint, body; cbv zeta; fold line.
  intros H. pose proof H as [Ha Hc]%andb_true_iff.
  destruct (alter_table_not_create _ Ha) as (-> & -> & ->).
  now rewrite H.
Qed.

Lemma body_pass_through :
  recognized line = false ->
  body fuel lines i new_lines = Ok (i + 1, new_lines ++ [line]).
Proof.
  unfold recognized, is_create_type, is_create_table, is_create_index,
    is_add_constraint, body; cbv zeta; fold line.
  intros [[[-> ->]%orb_false_iff ->]%orb_false_iff ->]%orb_false_iff.
  reflexivity.
Qed.

(** The four conditions cover [body]: every line takes one of the
    branches above. *)
Lemma body_cases :
  recognized line = false \/ is_create_type line = true \/
  is_create_table line = true \/ is_create_index line = true \/
  is_add_constraint line = true.
Proof.
  unfold recognized.
  destruct (is_create_type line), (is_create_table line),
    (is_create_index line), (is_add_constraint line); simpl; auto 6.
Qed.

End Body.

(** *** Cursor and fuel *)

(** Splits the branch a turn of the loop takes at line [i] and rewrites
    every [body _ lines i _] with that branch's equation. *)
Ltac body_branch lines i :=
  let Hb := fresh "Hb" in
  let Hre := fresh "Hre" in
  let tn := fresh "type_name" in
  destruct (body_cases lines i) as [Hb|[Hb|[Hb|[Hb|Hb]]]];
  [ rewrite !(fun f a => body_pass_through f lines i a Hb)
  | destruct (re_search_quoted CREATE_TYPE_sp (nth i lines [])) as [tn|] eqn:Hre;
    [ rewrite !(fun f a => body_create_type f lines i a tn Hb Hre)
    | rewrite !(fun f a => body_malformed_type f lines i a Hb Hre) ]
  | rewrite !(fun f a => body_create_table f lines i a Hb)
  | rewrite !(fun f a => body_create_index f lines i a Hb)
  | rewrite !(fun f a => body_add_constraint f lines i a Hb) ].

(** Every turn of the outer loop moves the cursor forward. *)
Lemma body_advances (fuel : nat) (lines : list str) (i : nat)
  (acc : list str) (i' : nat) (acc' : list str) :
  body fuel lines i acc = Ok (i', acc') -> i < i'.
Proof.
  body_branch lines i.
  - intros [= <- _]; lia.
  - destruct (accumulate _ _ _ _) as [[j stmt]| |] eqn:Ea; try discriminate.
    apply accumulate_advances in Ea. cbn [bind].
    destruct (subscript _ _); try discriminate.
    intros [= <- _]; lia.
  - intros [= <- _]; lia.
  - intros [= <- _]; lia.
  - destruct (_ && _); [|intros [= <- _]; lia].
    cbv zeta. do 2 (destruct (subscript _ _); try discriminate; cbn [bind]).
    intros [= <- _]; lia.
  - destruct (re_search_quoted ALTER_TABLE_sp _);
      [destruct (re_search_quoted ADD_CONSTRAINT_sp _)|];
      try (intros [= <- _]; lia).
    destruct (accumulate _ _ _ _) as [[j stmt]| |] eqn:Ea; try discriminate.
    apply accumulate_advances in Ea. intros [= <- _]; lia.
Qed.

(** A turn of the loop appends to [new_lines] and reads nothing of it. *)
Lemma body_acc (fuel : nat) (lines : list str) (i : nat) (acc : list str) :
  body fuel lines i acc =
  let* (i', out) := body fuel lines i [] in Ok (i', acc ++ out).
Proof.
  body_branch lines i; try reflexivity.
  - destruct (accumulate _ _ _ _) as [[j stmt]| |]; try reflexivity.
    cbn [bind]. destruct (subscript _ _); reflexivity.
  - destruct (_ && _); [|reflexivity].
    cbv zeta. destruct (subscript _ 0); try reflexivity.
    cbn [bind]. destruct (subscript _ 1); reflexivity.
  - destruct (re_search_quoted ALTER_TABLE_sp _);
      [destruct (re_search_quoted ADD_CONSTRAINT_sp _)|]; try reflexivity.
    destruct (accumulate _ _ _ _) as [[j stmt]| |]; reflexivity.
Qed.

(** With fuel for the lines after the cursor, a turn of the loop ends. *)
Lemma body_total (fuel : nat) (lines : list str) (i : nat) (acc : list str) :
  length lines <= fuel + i + 1 ->
  terminated (body fuel lines i acc) = true.
Proof.
  intros Hf. body_branch lines i; try reflexivity.
  - destruct (accumulate_total fuel lines i (nth i lines []) Hf)
      as (j & stmt & ->).
    cbn [bind]. unfold subscript. destruct (nth_error _ _); reflexivity.
  - destruct (_ && _); [|reflexivity].
    cbv zeta. unfold subscript. destruct (nth_error _ 0); try reflexivity.
    cbn [bind]. destruct (nth_error _ 1); reflexivity.
  - destruct (re_search_quoted ALTER_TABLE_sp _);
      [destruct (re_search_quoted ADD_CONSTRAINT_sp _)|]; try reflexivity.
    destruct (accumulate_total fuel lines i (nth i lines []) Hf)
      as (j & stmt & ->).
    reflexivity.
Qed.

(** More fuel does not change what a turn of the loop gives. *)
Lemma body_mono (fuel fuel' : nat) (lines : list str) (i : nat)
  (acc : list str) :
  fuel <= fuel' ->
  terminated (body fuel lines i acc) = true ->
  body fuel' lines i acc = body fuel lines i acc.
Proof.
  intros Hle.
  body_branch lines i; try reflexivity.
  - destruct (accumulate fuel _ _ _) as [[j stmt]| |] eqn:Ea;
      try discriminate; intros _;
      rewrite (accumulate_mono _ _ lines Hle), Ea by (now rewrite Ea);
      reflexivity.
  - destruct (re_search_quoted ALTER_TABLE_sp _);
      [destruct (re_search_quoted ADD_CONSTRAINT_sp _)|]; try reflexivity.
    destruct (accumulate fuel _ _ _) as [[j stmt]| |] eqn:Ea;
      try discriminate; intros _;
      rewrite (accumulate_mono _ _ lines Hle), Ea by (now rewrite Ea);
      reflexivity.
Qed.

Lemma loop_eq (fuel inner : nat) (lines : list str) (i : nat)
  (acc : list str) :
  loop fuel inner lines i acc =
  if i <? length lines then
    match fuel with
    | O => OutOfFuel
    | S fuel' =>
        let* (i', acc') := body inner lines i acc in
        loop fuel' inner lines i' acc'
    end
  else Ok acc.
Proof. destruct fuel; reflexivity. Qed.

(** A turn of the outer loop that ends well: the loop goes on from the
    new cursor with the new [new_lines]. *)
Lemma loop_turn (fuel inner : nat) (lines : list str) (i : nat)
  (acc : list str) (i' : nat) (acc' : list str) :
  i < length lines ->
  body inner lines i acc = Ok (i', acc') ->
  loop (S fuel) inner lines i acc = loop fuel inner lines i' acc'.
Proof.
  intros Hi Hb. rewrite loop_eq, Hb.
  now destruct (Nat.ltb_spec i (length lines)); [|lia].
Qed.

(** With fuel for the lines after the cursor, the outer loop ends. *)
Lemma loop_total (inner : nat) (lines : list str) :
  length lines <= inner ->
  forall fuel i acc,
    length lines <= fuel + i ->
    terminated (loop fuel inner lines i acc) = true.
Proof.
  intros Hin. induction fuel as [|fuel IH]; intros i acc Hf;
    rewrite loop_eq; destruct (i <? length lines) eqn:E; try reflexivity.
  - apply Nat.ltb_lt in E. lia.
  - apply Nat.ltb_lt in E.
    pose proof (body_total inner lines i acc) as Ht.
    destruct (body inner lines i acc) as [[i' acc']| |] eqn:Eb;
      try reflexivity; [|discriminate Ht; lia].
    apply body_advances in Eb. cbn [bind]. apply IH. lia.
Qed.

(** More fuel does not change what the outer loop gives. *)
Lemma loop_mono (inner inner' : nat) (lines : list str) :
  inner <= inner' ->
  forall fuel fuel' i acc,
    fuel <= fuel' ->
    terminated (loop fuel inner lines i acc) = true ->
    loop fuel' inner' lines i acc = loop fuel inner lines i acc.
Proof.
  intros Hin. induction fuel as [|fuel IH]; intros fuel' i acc Hle;
    rewrite (loop_eq fuel'), (loop_eq _ inner lines i acc);
    destruct (i <? length lines); try reflexivity; try discriminate.
  destruct fuel' as [|fuel']; [lia|].
  destruct (body inner lines i acc) as [[i' acc']| |] eqn:Eb;
    try discriminate.
  - rewrite (body_mono _ _ lines i acc Hin), Eb by (now rewrite Eb).
    cbn [bind]. apply IH. lia.
  - rewrite (body_mono _ _ lines i acc Hin), Eb by (now rewrite Eb).
    reflexivity.
Qed.

(** The outer loop appends to [new_lines] and reads nothing of it. *)
Lemma loop_acc (inner : nat) (lines : list str) :
  forall fuel i acc,
    loop fuel inner lines i acc =
    let* out := loop fuel inner lines i [] in Ok (acc ++ out).
Proof.
  induction fuel as [|fuel IH]; intros i acc;
    rewrite !(loop_eq _ _ lines i); destruct (i <? length lines);
    try reflexivity; try (cbn [bind]; now rewrite app_nil_r).
  rewrite body_acc.
  destruct (body inner lines i []) as [[i' o]| |]; try reflexivity.
  cbn [bind]. rewrite IH, (IH i' o).
  destruct (loop fuel inner lines i' []); try reflexivity.
  cbn [bind]. now rewrite app_assoc.
Qed.

(** *** The scan up to a cursor *)

(** A turn of the outer loop that ends well, with the fuel of
    [make_safe]: the rest of the run is the run from the new cursor. *)
Lemma loop_turn_full (lines : list str) (i : nat) (acc : list str)
  (i' : nat) (acc' : list str) :
  i < length lines ->
  body (length lines) lines i acc = Ok (i', acc') ->
  loop (length lines) (length lines) lines i acc =
  loop (length lines) (length lines) lines i' acc'.
Proof.
  intros Hi Hb. pose proof (body_advances _ _ _ _ _ _ Hb) as Hadv.
  destruct (length lines) as [|fuel] eqn:El; [lia|]. rewrite <- El in *.
  rewrite El at 1. rewrite (loop_turn _ _ _ _ _ _ _ Hi Hb).
  symmetry. rewrite El at 1.
  apply (loop_mono _ _ lines (le_n _)); [lia|].
  apply (loop_total _ lines (le_n _)). lia.
Qed.

(** The run of [make_safe] goes through every state that the turns of
    the outer loop reach. *)
Lemma loop_turns (lines : list str) :
  forall n i acc i' acc',
    turns n lines i acc = Ok (i', acc') ->
    loop (length lines) (length lines) lines i acc =
    loop (length lines) (length lines) lines i' acc'.
Proof.
  induction n as [|n IH]; intros i acc i' acc'; cbn [turns].
  - now intros [= -> ->].
  - destruct (Nat.ltb_spec i (length lines)) as [Hi|Hi];
      [|now intros [= -> ->]].
    destruct (body (length lines) lines i acc) as [[i1 acc1]| |] eqn:Hb;
      try discriminate.
    cbn [bind]. intros Ht.
    rewrite (loop_turn_full _ _ _ _ _ Hi Hb). now apply IH.
Qed.

(** When the scan of [sql_content] is at the cursor [i] with [acc]
    emitted and the turn at [i] gives the cursor [i'] and [acc'], the
    outcome of [make_safe] is [acc'] followed by what the loop emits from
    [i'] on, joined by line feeds. *)
Lemma make_safe_after_turn (sql_content : str) (n i : nat) (acc : list str)
  (i' : nat) (acc' : list str) :
  turns n (split sql_content [nl]) 0 [] = Ok (i, acc) ->
  i < length (split sql_content [nl]) ->
  body (length (split sql_content [nl])) (split sql_content [nl]) i acc =
    Ok (i', acc') ->
  make_safe sql_content =
  let* rest := loop (length (split sql_content [nl]))
                 (length (split sql_content [nl]))
                 (split sql_content [nl]) i' [] in
  Ok (join [nl] (acc' ++ rest)).
Proof.
  intros Ht Hi Hb. unfold make_safe, make_safe_fuel. cbv zeta.
  rewrite (loop_turns _ _ _ _ _ _ Ht), (loop_turn_full _ _ _ _ _ Hi Hb).
  rewrite loop_acc.
  now destruct (loop _ _ _ _ _).
Qed.

End MigrationFacts.


(* ================================================================= *)
(** ** The rewrite rules of [make_safe] *)

Module Rules.
Import Py PyFacts Migration MigrationFacts Samples.

Lemma nth_error_line (lines : list str) (i : nat) (line : str) :
  nth_error lines i = Some line ->
  nth i lines [] = line /\ i < length lines.
Proof.
  intros H. split.
  - now apply nth_error_nth.
  - apply nth_error_Some. congruence.
Qed.

(** C1, at an input on which the code fails: a [CREATE TYPE] statement
    with a quoted name and no uppercase [AS ENUM] (a composite type, an
    enum written in lower case), and a [CREATE INDEX] line that ends
    with the keyword, each make [make_safe] raise [IndexError] where the
    claim has it return a string. *)
Theorem make_safe_raises_index_error :
  make_safe pair_type = IndexError /\
  make_safe mood_type = IndexError /\
  make_safe bare_index = IndexError.
Proof. repeat split; vm_compute; reflexivity. Qed.

(** C2, at an input on which the code fails: the line of [pair_type]
    starts with [CREATE TYPE] and the type name [Pair] is extracted from
    it, the statement is accumulated up to its semicolon, and the
    subscript of the split on [AS ENUM] raises [IndexError]: no guarded
    block is produced. *)
Theorem enum_rewrite_raises_without_as_enum :
  is_create_type pair_type = true /\
  re_search_quoted CREATE_TYPE_sp pair_type = Some (py "Pair") /\
  accumulate 1 [pair_type] 0 pair_type = Ok (0, pair_type) /\
  split pair_type AS_ENUM = [pair_type] /\
  body 1 [pair_type] 0 [] = IndexError /\
  make_safe pair_type = IndexError.
Proof. repeat split; vm_compute; reflexivity. Qed.

(** The enum rule where the code succeeds: when the accumulated
    statement holds [AS ENUM], the turn of the loop emits the guarded
    block built from the extracted name and the text after the first
    [AS ENUM] (up to the next one), stripped and with its trailing
    semicolons removed, and moves the cursor past the statement. *)
Lemma enum_rewrite_with_as_enum (lines : list str) (i : nat)
  (new_lines : list str) (line type_name : str) :
  nth_error lines i = Some line ->
  is_create_type line = true ->
  re_search_quoted CREATE_TYPE_sp line = Some type_name ->
  exists j,
    i <= j < length lines /\
    (str_in [semicolon] (join [nl] (slice lines i j)) = true
     \/ j + 1 = length lines) /\
    (forall k, i <= k < j ->
               str_in [semicolon] (join [nl] (slice lines i k)) = false) /\
    body (length lines) lines i new_lines =
    match split (join [nl] (slice lines i j)) AS_ENUM with
    | _ :: part :: _ =>
        Ok (j + 1,
            new_lines ++
            [enum_block type_name (rstrip (strip part) [semicolon])])
    | _ => IndexError
    end.
Proof.
  intros [Hline Hi]%nth_error_line Hty Hre. rewrite <- Hline in Hty, Hre.
  rewrite (body_create_type _ _ _ _ _ Hty Hre).
  destruct (accumulate_total (length lines) lines i (nth i lines []))
    as (j & stmt & Ea); [lia|].
  destruct (accumulate_spec _ lines i i _ j stmt (conj (le_n i) Hi)
              (eq_sym (f_equal (join [nl]) (slice_one lines i Hi))) Ea)
    as (Hj & -> & Hend & Hno).
  exists j. rewrite Ea. cbn [bind]. unfold subscript.
  repeat split; try lia; try assumption.
  destruct (split _ AS_ENUM) as [|p0 [|part ps]]; reflexivity.
Qed.

(** The enum example of the specification. *)
Lemma enum_rewrite_example : make_safe color_enum = Ok color_enum_safe.
Proof. vm_compute; reflexivity. Qed.

(** C3: at a line whose trimmed form starts with [ALTER TABLE] and which
    holds [ADD CONSTRAINT]: when both quoted names are found, the turn
    of the loop joins the lines from [i] to the first [j] at which the
    joined text holds a semicolon (or to the last line), emits the block
    that looks the constraint name up in [pg_constraint] and runs that
    text as it is, and moves the cursor to [j + 1]; when a name is
    missing it emits the line as it is and moves the cursor to [i + 1].
    The outer loop goes on from there, and whenever the scan of a script
    stands at such a line, the outcome of [make_safe] on the script is
    the lines emitted so far, then the block (resp. the line), then what
    the loop emits from the new cursor on.  The constraint example of
    the specification, a statement on two lines and a line without a
    quoted constraint name follow, through [make_safe]. *)
Theorem add_constraint_rewrite (lines : list str) (i : nat)
  (new_lines : list str) (line : str) :
  nth_error lines i = Some line ->
  is_add_constraint line = true ->
  match re_search_quoted ALTER_TABLE_sp line,
        re_search_quoted ADD_CONSTRAINT_sp line with
  | Some table_name, Some constraint_name =>
      exists j,
        i <= j < length lines /\
        (str_in [semicolon] (join [nl] (slice lines i j)) = true
         \/ j + 1 = length lines) /\
        (forall k, i <= k < j ->
                   str_in [semicolon] (join [nl] (slice lines i k)) = false) /\
        let block :=
          py "DO $$" ++ nl ::
          py "BEGIN" ++ nl ::
          py "    IF NOT EXISTS (SELECT 1 FROM pg_constraint WHERE conname = '"
            ++ constraint_name ++ py "') THEN" ++ nl ::
          py "        " ++ join [nl] (slice lines i j) ++ nl ::
          py "    END IF;" ++ nl ::
          py "END" ++ nl ::
          py "$$;" in
        body (length lines) lines i new_lines =
          Ok (j + 1, new_lines ++ [block]) /\
        (forall fuel,
            loop (S fuel) (length lines) lines i new_lines =
            loop fuel (length lines) lines (j + 1) (new_lines ++ [block])) /\
        (forall sql_content n,
            split sql_content [nl] = lines ->
            turns n lines 0 [] = Ok (i, new_lines) ->
            make_safe sql_content =
            let* rest := loop (length lines) (length lines) lines (j + 1) [] in
            Ok (join [nl] (new_lines ++ block :: rest)))
  | _, _ =>
      body (length lines) lines i new_lines = Ok (i + 1, new_lines ++ [line]) /\
      (forall fuel,
          loop (S fuel) (length lines) lines i new_lines =
          loop fuel (length lines) lines (i + 1) (new_lines ++ [line])) /\
      (forall sql_content n,
          split sql_content [nl] = lines ->
          turns n lines 0 [] = Ok (i, new_lines) ->
          make_safe sql_content =
          let* rest := loop (length lines) (length lines) lines (i + 1) [] in
          Ok (join [nl] (new_lines ++ line :: rest)))
  end /\
  make_safe fk_user = Ok fk_user_safe /\
  make_safe (join [nl] fk_script) = Ok (join [nl] fk_script_safe) /\
  make_safe fk_unquoted = Ok fk_unquoted.
Proof.
  intros Hnth Hc.
  split; [|repeat split; vm_compute; reflexivity].
  destruct (nth_error_line _ _ _ Hnth) as [Hline Hi].
  rewrite <- Hline in Hc |- *.
  assert (Hpass :
            body (length lines) lines i new_lines =
              Ok (i + 1, new_lines ++ [nth i lines []]) ->
            body (length lines) lines i new_lines =
              Ok (i + 1, new_lines ++ [nth i lines []]) /\
            (forall fuel,
                loop (S fuel) (length lines) lines i new_lines =
                loop fuel (length lines) lines (i + 1)
                  (new_lines ++ [nth i lines []])) /\
            (forall sql_content n,
                split sql_content [nl] = lines ->
                turns n lines 0 [] = Ok (i, new_lines) ->
                make_safe sql_content =
                let* rest :=
                  loop (length lines) (length lines) lines (i + 1) [] in
                Ok (join [nl] (new_lines ++ nth i lines [] :: rest)))).
  { intros Hb. split; [exact Hb|].
    split; [intros fuel; apply (loop_turn _ _ _ _ _ _ _ Hi Hb)|].
    intros sql_content n Hs Ht. subst lines.
    rewrite (make_safe_after_turn _ _ _ _ _ _ Ht Hi Hb).
    destruct (loop _ _ _ _ _); try reflexivity.
    cbn [bind]. now rewrite <- app_assoc. }
  pose proof (body_add_constraint (length lines) lines i new_lines Hc) as Hbody.
  destruct (re_search_quoted ALTER_TABLE_sp _) as [table_name|];
    [|apply Hpass, Hbody].
  destruct (re_search_quoted ADD_CONSTRAINT_sp _) as [constraint_name|];
    [|apply Hpass, Hbody].
  destruct (accumulate_total (length lines) lines i (nth i lines []))
    as (j & stmt & Ea); [lia|].
  destruct (accumulate_spec _ lines i i _ j stmt (conj (le_n i) Hi)
              (eq_sym (f_equal (join [nl]) (slice_one lines i Hi))) Ea)
    as (Hj & -> & Hend & Hno).
  rewrite Ea in Hbody. cbn [bind] in Hbody. clear Hpass.
  exists j.
  split; [lia|]. split; [assumption|]. split; [assumption|].
  cbv zeta.
  split; [exact Hbody|].
  split; [intros fuel; apply (loop_turn _ _ _ _ _ _ _ Hi Hbody)|].
  intros sql_content n Hs Ht. subst lines.
  rewrite (make_safe_after_turn _ _ _ _ _ _ Ht Hi Hbody).
  destruct (loop _ _ _ _ _); try reflexivity.
  cbn [bind]. now rewrite <- app_assoc.
Qed.

(** [add_constraint_rewrite] at the second line of [fk_script], which
    the scan reaches after one turn: the statement ends on the third
    line. *)
Lemma add_constraint_rewrite_witness :
  nth_error fk_script 1 = Some (nth 1 fk_script []) /\
  is_add_constraint (nth 1 fk_script []) = true /\
  split (join [nl] fk_script) [nl] = fk_script /\
  turns 1 fk_script 0 [] = Ok (1, [py "-- constraints"]) /\
  exists j,
    1 <= j < length fk_script /\
    (str_in [semicolon] (join [nl] (slice fk_script 1 j)) = true
     \/ j + 1 = length fk_script) /\
    (forall k, 1 <= k < j ->
               str_in [semicolon] (join [nl] (slice fk_script 1 k)) = false) /\
    body (length fk_script) fk_script 1 [py "-- constraints"] =
    Ok (j + 1,
        [py "-- constraints"] ++
        [constraint_block (py "fk_user") (join [nl] (slice fk_script 1 j))]) /\
    make_safe (join [nl] fk_script) =
    let* rest := loop 4 4 fk_script (j + 1) [] in
    Ok (join [nl]
          ([py "-- constraints"] ++
           constraint_block (py "fk_user") (join [nl] (slice fk_script 1 j))
           :: rest)).
Proof.
  split; [reflexivity|]. split; [reflexivity|].
  split; [reflexivity|]. split; [reflexivity|].
  destruct (proj1 (add_constraint_rewrite fk_script 1 [py "-- constraints"]
                     (nth 1 fk_script []) eq_refl eq_refl))
    as (j & Hj & Hend & Hno & Hb & _ & Hm).
  exists j.
  split; [exact Hj|]. split; [exact Hend|]. split; [exact Hno|].
  split; [exact Hb|].
  exact (Hm (join [nl] fk_script) 1 eq_refl eq_refl).
Defined.

(** The constraint example of the specification, a statement on two
    lines, and a line without a quoted constraint name. *)
Lemma add_constraint_examples :
  make_safe fk_user = Ok fk_user_safe /\
  body 4 fk_script 1 [py "-- constraints"] =
    Ok (3, [py "-- constraints";
            constraint_block (py "fk_user")
              (join [nl] (slice fk_script 1 2))]) /\
  make_safe fk_unquoted = Ok fk_unquoted.
Proof. repeat split; vm_compute; reflexivity. Qed.





(** C10: at a line whose trimmed form starts with [CREATE TABLE], the
    turn of the loop emits the line with every occurrence of
    [CREATE TABLE] replaced, wherever it stands in the line, and a line
    that holds the guarded sequence already gets the guard a second
    time; the loop goes on at the next line, and whenever the scan of a
    script stands at such a line, the outcome of [make_safe] on the
    script is the lines emitted so far, then that line, then what the
    loop emits from the next line on.  A guarded table and a line with
    two table statements follow, through [make_safe]. *)
Theorem create_table_replaces_every_occurrence (lines : list str) (i : nat)
  (new_lines : list str) (line : str) :
  nth_error lines i = Some line ->
  is_create_table line = true ->
  body (length lines) lines i new_lines =
    Ok (i + 1,
        new_lines ++ [replace line CREATE_TABLE CREATE_TABLE_IF_NOT_EXISTS]) /\
  (forall fuel,
      loop (S fuel) (length lines) lines i new_lines =
      loop fuel (length lines) lines (i + 1)
        (new_lines ++ [replace line CREATE_TABLE CREATE_TABLE_IF_NOT_EXISTS])) /\
  (forall sql_content n,
      split sql_content [nl] = lines ->
      turns n lines 0 [] = Ok (i, new_lines) ->
      make_safe sql_content =
      let* rest := loop (length lines) (length lines) lines (i + 1) [] in
      Ok (join [nl]
            (new_lines ++
             replace line CREATE_TABLE CREATE_TABLE_IF_NOT_EXISTS :: rest))) /\
  (forall u x,
      line = u ++ CREATE_TABLE ++ x ->
      replace line CREATE_TABLE CREATE_TABLE_IF_NOT_EXISTS =
      replace u CREATE_TABLE CREATE_TABLE_IF_NOT_EXISTS ++
      CREATE_TABLE_IF_NOT_EXISTS ++
      replace x CREATE_TABLE CREATE_TABLE_IF_NOT_EXISTS) /\
  (forall u x,
      line = u ++ CREATE_TABLE_IF_NOT_EXISTS ++ x ->
      replace line CREATE_TABLE CREATE_TABLE_IF_NOT_EXISTS =
      replace u CREATE_TABLE CREATE_TABLE_IF_NOT_EXISTS ++
      py "CREATE TABLE IF NOT EXISTS IF NOT EXISTS" ++
      replace x CREATE_TABLE CREATE_TABLE_IF_NOT_EXISTS) /\
  make_safe guarded_table =
    Ok (py "CREATE TABLE IF NOT EXISTS IF NOT EXISTS " ++
        quoted "users" ++ py " (id INT);") /\
  make_safe (join [nl] two_tables) = Ok (join [nl] two_tables_safe).
Proof.
  intros [Hline Hi]%nth_error_line Ht. rewrite <- Hline in Ht.
  pose proof (body_create_table (length lines) lines i new_lines Ht) as Hb.
  rewrite Hline in Hb.
  split; [exact Hb|].
  split; [intros fuel; apply (loop_turn _ _ _ _ _ _ _ Hi Hb)|].
  split.
  { intros sql_content n Hs Hn. subst lines.
    rewrite (make_safe_after_turn _ _ _ _ _ _ Hn Hi Hb).
    destruct (loop _ _ _ _ _); try reflexivity.
    cbn [bind]. now rewrite <- app_assoc. }
  assert (Hocc : forall u x,
             replace (u ++ CREATE_TABLE ++ x)
               CREATE_TABLE CREATE_TABLE_IF_NOT_EXISTS =
             replace u CREATE_TABLE CREATE_TABLE_IF_NOT_EXISTS ++
             CREATE_TABLE_IF_NOT_EXISTS ++
             replace x CREATE_TABLE CREATE_TABLE_IF_NOT_EXISTS).
  { intros u x.
    apply (replace_app_occurrence 67%N (py "REATE TABLE") eq_refl). }
  split; [intros u x ->; apply Hocc|].
  split; [|split; vm_compute; reflexivity].
  intros u x ->.
  change CREATE_TABLE_IF_NOT_EXISTS
    with (CREATE_TABLE ++ py " IF NOT EXISTS") at 1.
  rewrite <- (app_assoc CREATE_TABLE), Hocc.
  (* the scan passes the guard that follows the keyword by computation:
     none of its characters starts an occurrence *)
  reflexivity.
Qed.

(** [create_table_replaces_every_occurrence] at the second line of
    [two_tables], which the scan reaches after one turn and which holds
    the keyword sequence twice. *)
Lemma create_table_replaces_every_occurrence_witness :
  nth_error two_tables 1 = Some (nth 1 two_tables []) /\
  is_create_table (nth 1 two_tables []) = true /\
  split (join [nl] two_tables) [nl] = two_tables /\
  turns 1 two_tables 0 [] = Ok (1, [py "-- tables"]) /\
  body 3 two_tables 1 [py "-- tables"] =
    Ok (2, [py "-- tables"; nth 1 two_tables_safe []]) /\
  make_safe (join [nl] two_tables) =
    let* rest := loop 3 3 two_tables 2 [] in
    Ok (join [nl] ([py "-- tables"] ++ nth 1 two_tables_safe [] :: rest)).
Proof.
  split; [reflexivity|]. split; [reflexivity|].
  split; [reflexivity|]. split; [reflexivity|].
  destruct (create_table_replaces_every_occurrence two_tables 1
              [py "-- tables"] (nth 1 two_tables []) eq_refl eq_refl)
    as (Hb & _ & Hm & _).
  split; [exact Hb|].
  exact (Hm (join [nl] two_tables) 1 eq_refl eq_refl).
Defined.

(** C4, at an input on which the code fails: the line of
    [idx_commented] starts with [CREATE INDEX], has no guard yet and
    holds the keyword and a space a second time, in its comment; the
    script keeps the first two pieces of the split only, so the text
    after the second occurrence is lost, where the claim has the rest of
    the line unchanged. *)
Theorem index_rewrite_drops_text_after_second_keyword :
  is_create_index idx_commented = true /\
  str_in IF_NOT_EXISTS idx_commented = false /\
  split idx_commented INDEX_sp =
    [py "CREATE ";
     quoted "idx" ++ py " ON " ++ quoted "t" ++ py " (" ++ quoted "c" ++
       py "); -- ";
     py "on c"] /\
  make_safe idx_commented = Ok idx_commented_out /\
  str_eqb idx_commented_out idx_commented_safe = false.
Proof. repeat split; vm_compute; reflexivity. Qed.

(** The index rule where the code succeeds: a line that holds the guard
    is emitted as it is, and a line that holds the keyword and a space
    once gets the guard right after them; one line is consumed. *)
Lemma index_rewrite_single_keyword (lines : list str) (i : nat)
  (new_lines : list str) (line : str) :
  nth_error lines i = Some line ->
  is_create_index line = true ->
  (str_in IF_NOT_EXISTS line = true ->
   body (length lines) lines i new_lines = Ok (i + 1, new_lines ++ [line])) /\
  (str_in IF_NOT_EXISTS line = false ->
   forall p0 p1,
     split line INDEX_sp = [p0; p1] ->
     line = p0 ++ py "INDEX " ++ p1 /\
     body (length lines) lines i new_lines =
       Ok (i + 1, new_lines ++ [p0 ++ py "INDEX IF NOT EXISTS " ++ p1])).
Proof.
  intros [Hline Hi]%nth_error_line Hx. rewrite <- Hline in Hx |- *.
  rewrite (body_create_index _ _ _ _ Hx). split.
  - intros ->. now rewrite andb_false_r.
  - intros Hg p0 p1 Hs.
    assert (Hl : nth i lines [] = p0 ++ py "INDEX " ++ p1).
    { rewrite <- (join_split 73%N (py "NDEX ") (nth i lines [])).
      change (73%N :: py "NDEX ") with INDEX_sp. now rewrite Hs. }
    split; [exact Hl|].
    assert (Hin : str_in INDEX (nth i lines []) = true).
    { rewrite Hl. change (py "INDEX ") with (INDEX ++ py " ").
      rewrite <- app_assoc. apply str_in_app. }
    rewrite Hin, Hg. cbv zeta. now rewrite Hs.
Qed.

(** The index example of the specification. *)
Lemma index_rewrite_example : make_safe idx_email = Ok idx_email_safe.
Proof. vm_compute; reflexivity. Qed.

End Rules.


(* ================================================================= *)
(** ** The whole script *)

Module Script.
Import Py PyFacts Migration MigrationFacts Samples.

(** *** Subsequences *)

Lemma subseq_nil_l (ys : list str) : subseq [] ys.
Proof. induction ys; now constructor. Qed.

Lemma subseq_refl (xs : list str) : subseq xs xs.
Proof. induction xs; [apply subseq_nil|now apply subseq_keep]. Qed.

Lemma subseq_app_l (zs xs ys : list str) :
  subseq xs ys -> subseq xs (zs ++ ys).
Proof. intros H. induction zs; [exact H|now constructor]. Qed.

Lemma subseq_cons_l_inv (z : str) (xs ys : list str) :
  subseq (z :: xs) ys -> subseq xs ys.
Proof.
  intros H. remember (z :: xs) as zs eqn:Hz.
  induction H as [|y zs ys H IH|y zs ys H IH]; [discriminate| |].
  - constructor. now apply IH.
  - injection Hz as -> ->. now constructor.
Qed.

Lemma str_eqb_eq (s t : str) : str_eqb s t = true <-> s = t.
Proof.
  unfold str_eqb. destruct (list_eq_dec N.eq_dec s t); split;
    congruence.
Qed.

(** [subseqb] decides [subseq]. *)
Lemma subseqb_sound (xs ys : list str) :
  subseqb xs ys = true -> subseq xs ys.
Proof.
  revert xs; induction ys as [|y ys IH]; intros [|x xs] H;
    try discriminate; try apply subseq_nil_l.
  simpl in H. destruct (str_eqb x y) eqn:E.
  - apply str_eqb_eq in E as ->. apply subseq_keep. now apply IH.
  - apply subseq_skip. now apply IH.
Qed.

Lemma subseqb_complete (xs ys : list str) :
  subseq xs ys -> subseqb xs ys = true.
Proof.
  revert xs; induction ys as [|y ys IH]; intros xs H.
  - now inversion H.
  - destruct xs as [|x xs]; [reflexivity|]. simpl.
    destruct (str_eqb x y) eqn:E.
    + apply IH. inversion H; subst; [|assumption].
      eapply subseq_cons_l_inv; eassumption.
    + apply IH. inversion H; subst; [assumption|].
      rewrite (proj2 (str_eqb_eq y y) eq_refl) in E. discriminate.
Qed.

(** *** A script without recognized lines *)

Lemma loop_pass_through (inner : nat) (lines : list str) :
  Forall (fun l => recognized l = false) lines ->
  forall fuel i acc,
    length lines <= fuel + i ->
    loop fuel inner lines i acc = Ok (acc ++ skipn i lines).
Proof.
  intros Hall. induction fuel as [|fuel IH]; intros i acc Hf;
    rewrite loop_eq; destruct (Nat.ltb_spec i (length lines)) as [Hi|Hi];
    try lia.
  - now rewrite skipn_all2, app_nil_r by lia.
  - rewrite body_pass_through.
    + cbn [bind]. rewrite IH by lia.
      rewrite (skipn_nth_cons lines i Hi), <- app_assoc.
      now replace (i + 1) with (S i) by lia.
    + rewrite Forall_forall in Hall. apply Hall. now apply nth_In.
  - now rewrite skipn_all2, app_nil_r by lia.
Qed.

(** C6: on a script none of whose lines matches a recognized leading
    pattern, [make_safe] returns the script itself. *)
Theorem pass_through_identity (sql_content : str) :
  forallb (fun l => negb (recognized l)) (split sql_content [nl]) = true ->
  make_safe sql_content = Ok sql_content.
Proof.
  intros H. unfold make_safe, make_safe_fuel.
  rewrite (loop_pass_through _ (split sql_content [nl])); [|
    |now rewrite Nat.add_0_r].
  - cbn [bind skipn app]. now rewrite (join_split nl []).
  - rewrite forallb_forall in H. apply Forall_forall. intros l Hl.
    apply negb_true_iff. now apply H.
Qed.

(** [pass_through_identity] at [plain_script]. *)
Lemma pass_through_identity_witness :
  forallb (fun l => negb (recognized l)) (split plain_script [nl]) = true /\
  make_safe plain_script = Ok plain_script.
Proof.
  split; [reflexivity|].
  exact (pass_through_identity plain_script eq_refl).
Defined.

(** *** Termination *)

Lemma make_safe_fuel_enough (fuel : nat) (sql_content : str) :
  length (split sql_content [nl]) <= fuel ->
  make_safe_fuel fuel sql_content = make_safe sql_content.
Proof.
  intros Hf. unfold make_safe, make_safe_fuel.
  rewrite (loop_mono _ fuel (split sql_content [nl]) Hf _ fuel 0 [] Hf);
    [reflexivity|].
  apply loop_total; lia.
Qed.

(** C9: [make_safe] ends on every input, by returning or by raising; the
    number of lines is fuel enough for its loops, and a run on any other
    fuel that ends gives the same outcome.  Each turn of the outer loop
    moves the cursor forward; each step of the inner loop moves it by
    one line, and the inner loop never moves it back nor past the last
    line. *)
Theorem make_safe_terminates (sql_content : str) :
  terminated (make_safe sql_content) = true /\
  (forall fuel,
      terminated (make_safe_fuel fuel sql_content) = true ->
      make_safe_fuel fuel sql_content = make_safe sql_content) /\
  (forall fuel lines i new_lines i' new_lines',
      body fuel lines i new_lines = Ok (i', new_lines') -> i < i') /\
  (forall fuel lines i stmt,
      negb (str_in [semicolon] stmt) && (i + 1 <? length lines) = true ->
      accumulate (S fuel) lines i stmt =
      accumulate fuel lines (i + 1) (stmt ++ nl :: nth (i + 1) lines [])) /\
  (forall fuel lines i stmt i' stmt',
      accumulate fuel lines i stmt = Ok (i', stmt') ->
      i <= i' /\ (i < i' -> i' < length lines)).
Proof.
  assert (Hend : terminated (make_safe sql_content) = true).
  { unfold make_safe, make_safe_fuel.
    pose proof (loop_total (length (split sql_content [nl]))
                  (split sql_content [nl]) (le_n _)
                  (length (split sql_content [nl])) 0 []) as H.
    destruct (loop _ _ _ _ _); try reflexivity. discriminate H. lia. }
  split; [exact Hend|]. split; [|split; [|split]].
  - intros fuel Hf.
    destruct (Nat.le_ge_cases (length (split sql_content [nl])) fuel)
      as [Hle|Hle]; [now apply make_safe_fuel_enough|].
    unfold make_safe, make_safe_fuel in *.
    rewrite (loop_mono _ _ (split sql_content [nl]) Hle _ _ 0 [] Hle);
      [reflexivity|].
    destruct (loop fuel _ _ _ _); try reflexivity. discriminate Hf.
  - intros fuel lines i new_lines i' new_lines'. apply body_advances.
  - intros fuel lines i stmt E. now rewrite accumulate_eq, E.
  - intros fuel lines. induction fuel as [|fuel IH]; intros i stmt i' stmt';
      rewrite accumulate_eq; destruct (_ && (_ <? _)) eqn:E;
      try discriminate; try (intros [= <- _]; lia).
    intros H%IH. apply andb_true_iff in E as [_ E%Nat.ltb_lt]. lia.
Qed.

(** *** The lines outside the enum statements *)

Lemma subseq_app (xs xs' ys ys' : list str) :
  subseq xs xs' -> subseq ys ys' -> subseq (xs ++ ys) (xs' ++ ys').
Proof.
  intros Hx Hy. induction Hx as [|x xs xs' H IH|x xs xs' H IH]; simpl.
  - exact Hy.
  - now apply subseq_skip.
  - now apply subseq_keep.
Qed.

Lemma subseq_app_r (zs xs ys : list str) :
  subseq xs ys -> subseq xs (ys ++ zs).
Proof.
  intros H. rewrite <- (app_nil_r xs).
  apply subseq_app; [exact H|apply subseq_nil_l].
Qed.

Lemma subseq_filter (f : str -> bool) (l : list str) :
  subseq (filter f l) l.
Proof.
  induction l as [|x l IH]; simpl; [apply subseq_nil|].
  destruct (f x); [now apply subseq_keep|now apply subseq_skip].
Qed.

Lemma outside_enums_eq (fuel inner : nat) (lines : list str) (i : nat) :
  outside_enums fuel inner lines i =
  if i <? length lines then
    match fuel with
    | O => []
    | S fuel' =>
        match body inner lines i [] with
        | Ok (i', _) =>
            (if is_enum_statement (nth i lines []) then []
             else slice lines i (i' - 1))
            ++ outside_enums fuel' inner lines i'
        | _ => []
        end
    end
  else [].
Proof. destruct fuel; reflexivity. Qed.

(** The lines a turn of the loop goes over, then the lines after them,
    are the lines from the cursor on. *)
Lemma slice_skipn (lines : list str) (i i' : nat) :
  i < i' -> slice lines i (i' - 1) ++ skipn i' lines = skipn i lines.
Proof.
  intros Hi. unfold slice.
  replace (i' - 1 + 1 - i) with (i' - i) by lia.
  rewrite <- (firstn_skipn (i' - i) (skipn i lines)) at 2.
  rewrite skipn_skipn. now replace (i' - i + i) with i' by lia.
Qed.

Lemma slice_cons (lines : list str) (i j : nat) :
  i <= j -> i < length lines ->
  slice lines i j = nth i lines [] :: slice lines (i + 1) j.
Proof.
  intros Hij Hi. unfold slice.
  rewrite (skipn_nth_cons lines i Hi).
  replace (j + 1 - i) with (S (j + 1 - (i + 1))) by lia.
  now replace (i + 1) with (S i) by lia.
Qed.

Lemma In_slice (lines : list str) (i j : nat) (l : str) :
  In l (slice lines i j) -> In l lines.
Proof.
  unfold slice. intros H.
  rewrite <- (firstn_skipn i lines). apply in_or_app. right.
  rewrite <- (firstn_skipn (j + 1 - i) (skipn i lines)).
  apply in_or_app. now left.
Qed.

(** The lines outside the enum statements are lines of the script, in
    their order. *)
Lemma outside_enums_subseq (inner : nat) (lines : list str) :
  forall fuel i, subseq (outside_enums fuel inner lines i) (skipn i lines).
Proof.
  induction fuel as [|fuel IH]; intros i; rewrite outside_enums_eq;
    destruct (i <? length lines); try apply subseq_nil_l.
  destruct (body inner lines i []) as [[i' o]| |] eqn:Eb;
    try apply subseq_nil_l.
  apply body_advances in Eb. rewrite <- (slice_skipn lines i i' Eb).
  apply subseq_app; [|apply IH].
  destruct (is_enum_statement _); [apply subseq_nil_l|apply subseq_refl].
Qed.

(** Lines without a line feed are their own single line. *)
Lemma concat_split_lines (l : list str) :
  Forall (fun x => str_in [nl] x = false) l ->
  concat (map (fun x => split x [nl]) l) = l.
Proof.
  induction 1 as [|x l Hx Hl IH]; [reflexivity|].
  simpl. now rewrite (split_absent nl [] x Hx), IH.
Qed.

(** The block of the constraint branch, cut at the line feeds around the
    statement. *)
Lemma constraint_block_lines (constraint_name stmt : str) :
  exists head tail,
    constraint_block constraint_name stmt =
    head ++ nl :: (py "        " ++ stmt) ++ nl :: tail.
Proof.
  exists (py "DO $$" ++ nl :: py "BEGIN" ++ nl ::
          py "    IF NOT EXISTS (SELECT 1 FROM pg_constraint WHERE conname = "
          ++ squote :: constraint_name ++ squote :: py ") THEN"),
         (py "    END IF;" ++ nl :: py "END" ++ nl :: py "$$;").
  unfold constraint_block.
  repeat (rewrite <- app_assoc || rewrite <- app_comm_cons). reflexivity.
Qed.

(** With the lines of the script free of line feeds, the lines of what a
    turn of the loop emits hold, in order, the unrecognized lines it
    went over, unless it rewrote an enum statement. *)
Lemma body_keeps_lines (inner : nat) (lines : list str) (i i' : nat)
  (o : list str) :
  Forall (fun x => str_in [nl] x = false) lines ->
  i < length lines ->
  body inner lines i [] = Ok (i', o) ->
  subseq (unrecognized (if is_enum_statement (nth i lines []) then []
                        else slice lines i (i' - 1)))
         (concat (map (fun y => split y [nl]) o)).
Proof.
  intros Hnl Hi.
  assert (Hone : forall new_line,
             recognized (nth i lines []) = true ->
             subseq (unrecognized
                       (if is_enum_statement (nth i lines []) then []
                        else slice lines i (i + 1 - 1)))
                    (concat (map (fun y => split y [nl]) [new_line]))).
  { intros new_line Hr. replace (i + 1 - 1) with i by lia.
    rewrite (slice_one lines i Hi).
    destruct (is_enum_statement _); [apply subseq_nil_l|].
    unfold unrecognized. cbn [filter]. rewrite Hr. apply subseq_nil_l. }
  body_branch lines i.
  - intros [= <- <-]. replace (i + 1 - 1) with i by lia.
    rewrite (slice_one lines i Hi).
    assert (His : is_enum_statement (nth i lines []) = false).
    { unfold is_enum_statement. unfold recognized in Hb.
      now destruct (is_create_type _). }
    rewrite His. cbn [app map concat]. rewrite app_nil_r.
    rewrite (split_absent nl [] (nth i lines [])).
    + apply subseq_filter.
    + rewrite Forall_forall in Hnl. apply Hnl. now apply nth_In.
  - intros _. unfold is_enum_statement. rewrite Hb, Hre.
    apply subseq_nil_l.
  - intros [= <- <-]. apply Hone. unfold recognized. now rewrite Hb.
  - intros [= <- <-]. apply Hone. unfold recognized. rewrite Hb.
    apply orb_true_iff. left. apply orb_true_iff. left. apply orb_true_r.
  - destruct (_ && _).
    + cbv zeta. unfold subscript.
      destruct (nth_error _ 0); try discriminate. cbn [bind].
      destruct (nth_error _ 1); try discriminate. cbn [bind].
      intros [= <- <-]. apply Hone. unfold recognized. rewrite Hb.
      apply orb_true_iff. left. apply orb_true_r.
    + intros [= <- <-]. apply Hone. unfold recognized. rewrite Hb.
      apply orb_true_iff. left. apply orb_true_r.
  - assert (Hr : recognized (nth i lines []) = true).
    { unfold recognized. rewrite Hb. apply orb_true_r. }
    destruct (re_search_quoted ALTER_TABLE_sp _) as [table_name|];
      [|intros [= <- <-]; now apply Hone].
    destruct (re_search_quoted ADD_CONSTRAINT_sp _) as [constraint_name|];
      [|intros [= <- <-]; now apply Hone].
    destruct (accumulate inner lines i (nth i lines []))
      as [[j stmt]| |] eqn:Ea; try discriminate.
    cbn [bind]. intros [= <- <-].
    destruct (accumulate_spec _ lines i i _ j stmt (conj (le_n i) Hi)
                (eq_sym (f_equal (join [nl]) (slice_one lines i Hi))) Ea)
      as (Hj & -> & _ & _).
    assert (His : is_enum_statement (nth i lines []) = false).
    { unfold is_enum_statement.
      apply andb_true_iff in Hb as [Ha _].
      unfold is_create_type.
      now destruct (alter_table_not_create _ Ha) as (-> & _). }
    rewrite His. replace (j + 1 - 1) with j by lia.
    rewrite (slice_cons lines i j) by lia.
    unfold unrecognized at 1. cbn [filter]. rewrite Hr. cbn [negb].
    fold (unrecognized (slice lines (i + 1) j)).
    destruct (constraint_block_lines constraint_name
                (join [nl] (nth i lines [] :: slice lines (i + 1) j)))
      as (head & tail & ->).
    cbn [map concat app]. rewrite app_nil_r, !split_app_char.
    apply subseq_app_l, subseq_app_r.
    assert (Hrest : Forall (fun x => str_in [nl] x = false)
                      (slice lines (i + 1) j)).
    { apply Forall_forall. intros l Hl%In_slice.
      rewrite Forall_forall in Hnl. now apply Hnl. }
    destruct (slice lines (i + 1) j) as [|l rest] eqn:Es.
    + apply subseq_nil_l.
    + rewrite join_cons by discriminate.
      change (py "        " ++ nth i lines [] ++ [nl] ++ join [nl] (l :: rest))
        with (py "        " ++ nth i lines [] ++ nl :: join [nl] (l :: rest)).
      rewrite app_assoc, split_app_char, split_join_char by discriminate.
      rewrite (concat_split_lines _ Hrest).
      apply subseq_app_l, subseq_filter.
Qed.

(** What the outer loop appends holds, in order, the unrecognized lines
    outside the enum statements. *)
Lemma loop_keeps_lines (inner : nat) (lines : list str) :
  Forall (fun x => str_in [nl] x = false) lines ->
  forall fuel i acc out,
    loop fuel inner lines i acc = Ok out ->
    exists ys,
      out = acc ++ ys /\
      subseq (unrecognized (outside_enums fuel inner lines i))
             (concat (map (fun y => split y [nl]) ys)).
Proof.
  intros Hnl. induction fuel as [|fuel IH]; intros i acc out;
    rewrite loop_eq, outside_enums_eq;
    destruct (Nat.ltb_spec i (length lines)) as [Hi|Hi];
    try discriminate;
    try (intros [= <-]; exists []; split;
         [now rewrite app_nil_r|apply subseq_nil]).
  rewrite body_acc.
  destruct (body inner lines i []) as [[i' o]| |] eqn:Eb; try discriminate.
  cbn [bind]. intros (ys & -> & Hys)%IH.
  exists (o ++ ys). split; [now rewrite app_assoc|].
  unfold unrecognized in *. rewrite filter_app, map_app, concat_app.
  apply subseq_app; [|exact Hys].
  now apply (body_keeps_lines inner lines i i' o Hnl Hi).
Qed.

(** Without enum statements, no line is left out. *)
Lemma outside_enums_all (inner : nat) (lines : list str) :
  Forall (fun l => is_enum_statement l = false) lines ->
  forall fuel i acc out,
    loop fuel inner lines i acc = Ok out ->
    outside_enums fuel inner lines i = skipn i lines.
Proof.
  intros Hno. induction fuel as [|fuel IH]; intros i acc out;
    rewrite loop_eq, outside_enums_eq;
    destruct (Nat.ltb_spec i (length lines)) as [Hi|Hi];
    try discriminate;
    try (intros _; now rewrite skipn_all2 by lia).
  rewrite body_acc.
  destruct (body inner lines i []) as [[i' o]| |] eqn:Eb; try discriminate.
  cbn [bind]. intros H%IH. rewrite H.
  rewrite Forall_forall in Hno. rewrite (Hno (nth i lines [])).
  - apply slice_skipn. now apply body_advances in Eb.
  - now apply nth_In.
Qed.

(** C7, as amended: when [make_safe] returns, the unrecognized lines of
    the input that are not part of an enum statement (lines that the
    accumulation of a [CREATE TYPE] statement took up) are among the
    lines of the output, with the same content and in the same order;
    the lines so kept are lines of the input in their order, and all of
    them when the script has no enum statement. *)
Theorem unrecognized_lines_outside_enums_kept (sql_content out : str) :
  make_safe sql_content = Ok out ->
  subseq (unrecognized (lines_outside_enums sql_content)) (split out [nl]) /\
  subseq (lines_outside_enums sql_content) (split sql_content [nl]) /\
  (forallb (fun l => negb (is_enum_statement l)) (split sql_content [nl])
   = true ->
   lines_outside_enums sql_content = split sql_content [nl]).
Proof.
  intros H. unfold make_safe, make_safe_fuel in H.
  destruct (loop _ _ _ _ _) as [outs| |] eqn:El; try discriminate.
  injection H as <-.
  split; [|split].
  - apply loop_keeps_lines in El as (ys & -> & Hys);
      [|apply split_pieces_no_char].
    fold (lines_outside_enums sql_content) in Hys. cbn [app].
    destruct ys as [|y ys].
    + inversion Hys. apply subseq_nil_l.
    + now rewrite split_join_char by discriminate.
  - apply (outside_enums_subseq _ (split sql_content [nl]) _ 0).
  - intros Hno. apply (outside_enums_all _ _) in El; [exact El|].
    rewrite forallb_forall in Hno. apply Forall_forall. intros l Hl.
    apply negb_true_iff. now apply Hno.
Qed.

(** [unrecognized_lines_outside_enums_kept] at [fk_script], whose third
    line is taken up by the constraint statement and kept. *)
Lemma unrecognized_lines_outside_enums_kept_witness :
  make_safe (join [nl] fk_script) = Ok (join [nl] fk_script_safe) /\
  subseq (unrecognized (lines_outside_enums (join [nl] fk_script)))
         (split (join [nl] fk_script_safe) [nl]) /\
  subseq (lines_outside_enums (join [nl] fk_script))
         (split (join [nl] fk_script) [nl]).
Proof.
  split; [vm_compute; reflexivity|].
  pose proof (unrecognized_lines_outside_enums_kept (join [nl] fk_script)
                (join [nl] fk_script_safe) eq_refl) as (H1 & H2 & _).
  split; [exact H1|exact H2].
Defined.

(** C7, as the specification words it, fails on [split_enum]: its second
    line matches no recognized pattern and is not a line of the
    output. *)
Lemma unrecognized_lines_kept_fails : ~ unrecognized_lines_kept split_enum.
Proof.
  intros H. specialize (H split_enum_out eq_refl).
  apply subseqb_complete in H. vm_compute in H. discriminate H.
Qed.

End Script.


(* ================================================================= *)
(** ** How lines are classified *)

Module Classification.
Import Py PyFacts Migration MigrationFacts Notions.

(** *** Stripping *)

Lemma lstrip_by_split (f : char -> bool) (s : str) :
  exists ws, s = ws ++ lstrip_by f s /\ forallb f ws = true.
Proof.
  induction s as [|c s (ws & Hs & Hws)]; [now exists []|].
  simpl. destruct (f c) eqn:E.
  - exists (c :: ws). split; [now rewrite Hs at 1|]. simpl. now rewrite E.
  - now exists [].
Qed.

Lemma lstrip_by_spaces (f : char -> bool) (ws t : str) :
  forallb f ws = true -> lstrip_by f (ws ++ t) = lstrip_by f t.
Proof.
  induction ws as [|c ws IH]; [reflexivity|].
  simpl. intros [-> H]%andb_true_iff. now apply IH.
Qed.

Lemma lstrip_by_app_keep (f : char -> bool) (x y : str) (c : char) :
  f c = false -> lstrip_by f (x ++ c :: y) = lstrip_by f x ++ c :: y.
Proof.
  intros Hc. induction x as [|d x IH]; simpl; [now rewrite Hc|].
  destruct (f d); [exact IH|reflexivity].
Qed.

Lemma rstrip_by_app_keep (f : char -> bool) (u r : str) (c : char) :
  f c = false -> rstrip_by f (u ++ c :: r) = u ++ c :: rstrip_by f r.
Proof.
  intros Hc. unfold rstrip_by.
  rewrite rev_app_distr. simpl rev. rewrite <- app_assoc. simpl app.
  rewrite lstrip_by_app_keep by exact Hc.
  rewrite rev_app_distr. simpl rev. rewrite rev_involutive.
  now rewrite <- app_assoc.
Qed.

(** Stripping on the right leaves a prefix. *)
Lemma rstrip_by_prefix (f : char -> bool) (t : str) :
  exists ws, t = rstrip_by f t ++ ws.
Proof.
  unfold rstrip_by. destruct (lstrip_by_split f (rev t)) as (ws & Hs & _).
  exists (rev ws). rewrite <- rev_app_distr, <- Hs. now rewrite rev_involutive.
Qed.

Section Keyword.

(** A keyword sequence [kw = k0 :: mid ++ [k1]] that starts and ends with
    a character that is not white space. *)
Variables (k0 k1 : char) (mid : str).
Let kw : str := k0 :: mid ++ [k1].
Hypothesis first_solid : isspace k0 = false.
Hypothesis last_solid : isspace k1 = false.

(** The trimmed line starts with [kw] when the line is white space, [kw]
    and anything. *)
Lemma strip_startswith_iff (line : str) :
  startswith (strip line) kw = true <-> leading kw line.
Proof.
  unfold strip, leading. split.
  - intros H.
    destruct (rstrip_by_prefix isspace (lstrip_by isspace line)) as (tl & Ht).
    destruct (startswith_inv _ _ H) as (r & Hr).
    destruct (lstrip_by_split isspace line) as (ws & Hl & Hws).
    exists ws, (r ++ tl). split; [|exact Hws].
    rewrite Hl at 1. rewrite Ht, Hr. now rewrite <- !app_assoc.
  - intros (ws & rest & -> & Hws).
    rewrite lstrip_by_spaces by exact Hws.
    unfold kw. cbn [app lstrip_by]. rewrite first_solid.
    replace (k0 :: (mid ++ [k1]) ++ rest) with ((k0 :: mid) ++ k1 :: rest)
      by (cbn [app]; now rewrite <- app_assoc).
    rewrite rstrip_by_app_keep by exact last_solid.
    replace ((k0 :: mid) ++ k1 :: rstrip_by isspace rest)
      with ((k0 :: mid ++ [k1]) ++ rstrip_by isspace rest)
      by (cbn [app]; now rewrite <- app_assoc).
    apply startswith_app.
Qed.

End Keyword.

(** X1: a line is classified by what follows its leading white space,
    whatever comes after the keyword sequence and at the end of the
    line. *)
Theorem classified_by_leading_keyword (line : str) :
  (is_create_type line = true <-> leading CREATE_TYPE line) /\
  (is_create_table line = true <-> leading CREATE_TABLE line) /\
  (is_create_index line = true <->
   leading CREATE_INDEX line \/ leading CREATE_UNIQUE_INDEX line) /\
  (is_add_constraint line = true <->
   leading ALTER_TABLE line /\ str_in ADD_CONSTRAINT line = true).
Proof.
  unfold is_create_type, is_create_table, is_create_index, is_add_constraint.
  split; [|split; [|split]].
  - apply (strip_startswith_iff 67%N 69%N (py "REATE TYP") eq_refl eq_refl).
  - apply (strip_startswith_iff 67%N 69%N (py "REATE TABL") eq_refl eq_refl).
  - rewrite orb_true_iff.
    rewrite (strip_startswith_iff 67%N 88%N (py "REATE INDE") eq_refl eq_refl).
    rewrite (strip_startswith_iff 67%N 88%N (py "REATE UNIQUE INDE")
               eq_refl eq_refl).
    reflexivity.
  - rewrite andb_true_iff.
    rewrite (strip_startswith_iff 65%N 69%N (py "LTER TABL") eq_refl eq_refl).
    reflexivity.
Qed.

Lemma strip_startswith_head (line kw : str) (k0 : char) (kw' : str) :
  kw = k0 :: kw' ->
  startswith (strip line) kw = true ->
  hd_error (lstrip_by isspace line) = Some k0.
Proof.
  intros -> H. unfold strip in H.
  destruct (rstrip_by_prefix isspace (lstrip_by isspace line)) as (tl & Ht).
  destruct (startswith_inv _ _ H) as (r & Hr).
  rewrite Ht, Hr. reflexivity.
Qed.

(** X2: a line whose first character after the leading white space is
    neither [C] nor [A] (a comment, a statement in lower case), or that
    is blank, is emitted as it is, and the cursor moves by one line. *)
Theorem other_first_character_passes_through (lines : list str) (i : nat)
  (new_lines : list str) (line : str) :
  nth_error lines i = Some line ->
  hd_error (lstrip_by isspace line) <> Some 67%N ->
  hd_error (lstrip_by isspace line) <> Some 65%N ->
  recognized line = false /\
  body (length lines) lines i new_lines = Ok (i + 1, new_lines ++ [line]).
Proof.
  intros Hn HC HA.
  assert (Hr : recognized line = false).
  { unfold recognized, is_create_type, is_create_table, is_create_index,
      is_add_constraint.
    repeat match goal with
           | |- context [startswith (strip line) ?kw] =>
               let E := fresh "E" in
               destruct (startswith (strip line) kw) eqn:E;
               [ exfalso;
                 first [ apply HC; now apply (strip_startswith_head line kw
                                               67%N (tl kw) eq_refl)
                       | apply HA; now apply (strip_startswith_head line kw
                                               65%N (tl kw) eq_refl) ]
               | ]
           end.
    reflexivity. }
  split; [exact Hr|].
  apply nth_error_nth with (d := []) in Hn. rewrite <- Hn in Hr |- *.
  now apply body_pass_through.
Qed.

(** [other_first_character_passes_through] at a statement in lower
    case. *)
Lemma other_first_character_passes_through_witness :
  nth_error [py "  create table t (id int);"] 0
    = Some (py "  create table t (id int);") /\
  hd_error (lstrip_by isspace (py "  create table t (id int);"))
    <> Some 67%N /\
  hd_error (lstrip_by isspace (py "  create table t (id int);"))
    <> Some 65%N /\
  body 1 [py "  create table t (id int);"] 0 []
    = Ok (1, [py "  create table t (id int);"]).
Proof.
  split; [reflexivity|]. split; [discriminate|]. split; [discriminate|].
  exact (proj2 (other_first_character_passes_through
                  [py "  create table t (id int);"] 0 []
                  (py "  create table t (id int);") eq_refl
                  ltac:(discriminate) ltac:(discriminate))).
Defined.

End Classification.


(* ================================================================= *)
(** ** When a subscript fails *)

Module Errors.
Import Py PyFacts Migration MigrationFacts Samples Notions.

Section Pieces.

Variables (a : char) (sep' : str).
Local Abbreviation sep := (a :: sep') (only parsing).

(** The first piece of a split is a prefix of the string. *)
Lemma split_head_prefix (s p : str) (ps : list str) :
  split s sep = p :: ps -> exists tl, s = p ++ tl.
Proof.
  intros H. rewrite <- (join_split a sep' s). rewrite H.
  destruct ps as [|p' ps]; [exists []; simpl; now rewrite app_nil_r|].
  now exists (sep ++ join sep (p' :: ps)).
Qed.

(** No piece of a split holds the separator. *)
Lemma split_pieces_no_sep (s : str) :
  Forall (fun p => str_in sep p = false) (split s sep).
Proof.
  induction s as [|t IH|c s E IH] using (scan_ind a sep').
  - now constructor.
  - rewrite (split_match a sep'). now constructor.
  - rewrite (split_step a sep') by exact E.
    destruct (split s sep) as [|p ps] eqn:Es;
      [now apply (split_not_nil a sep') in Es|].
    inversion IH as [|? ? Hp Hps]; subst. constructor; [|exact Hps].
    change (str_in sep (c :: p))
      with (startswith (c :: p) sep || str_in sep p).
    rewrite Hp, orb_false_r.
    destruct (startswith (c :: p) sep) eqn:Ec; [|reflexivity].
    destruct (split_head_prefix s p ps Es) as (tl & ->).
    destruct (startswith_inv _ _ Ec) as (r & Hr).
    change (c :: p ++ tl) with ((c :: p) ++ tl) in E.
    rewrite Hr, <- app_assoc, startswith_app in E. discriminate.
Qed.

(** A string that holds the separator has at least two pieces. *)
Lemma split_two (s : str) :
  str_in sep s = true -> exists p0 p1 ps, split s sep = p0 :: p1 :: ps.
Proof.
  induction s as [|c s IH]; [discriminate|].
  change (str_in sep (c :: s))
    with (startswith (c :: s) sep || str_in sep s).
  destruct (startswith (c :: s) sep) eqn:E.
  - intros _. destruct (startswith_inv _ _ E) as (t & ->).
    rewrite (split_match a sep').
    destruct (split t sep) as [|p ps] eqn:Et;
      [now apply (split_not_nil a sep') in Et|].
    now exists [], p, ps.
  - simpl. intros (p0 & p1 & ps & Hs)%IH.
    rewrite (split_step a sep') by exact E. rewrite Hs.
    now exists (c :: p0), p1, ps.
Qed.

(** The first two pieces of a string that holds the separator: the text
    before its first occurrence and the text between the first and the
    second (or the end). *)
Lemma split_first_two (s : str) :
  str_in sep s = true ->
  exists p0 p1 ps rest,
    split s sep = p0 :: p1 :: ps /\
    s = p0 ++ sep ++ p1 ++ rest /\
    str_in sep p0 = false /\ str_in sep p1 = false /\
    (rest = [] \/ startswith rest sep = true).
Proof.
  intros (p0 & p1 & ps & Hs)%split_two.
  pose proof (split_pieces_no_sep s) as Hp. rewrite Hs in Hp.
  inversion Hp as [|? ? H0 Hp']; subst.
  inversion Hp' as [|? ? H1 _]; subst.
  pose proof (join_split a sep' s) as Hj. rewrite Hs in Hj.
  rewrite join_cons in Hj by discriminate.
  destruct ps as [|p2 ps].
  - exists p0, p1, [], [].
    split; [exact Hs|]. split; [|now auto].
    symmetry. now rewrite app_nil_r.
  - exists p0, p1, (p2 :: ps), (sep ++ join sep (p2 :: ps)).
    split; [exact Hs|]. split; [|split; [exact H0|split; [exact H1|]]].
    + symmetry. now rewrite join_cons in Hj by discriminate.
    + right. apply startswith_app.
Qed.

End Pieces.

(** X3: what the index branch does, case by case.  With the guard in the
    line, the line is emitted as it is.  Without the guard and without
    the keyword followed by a space, the subscript fails.  Otherwise the
    emitted line is the text before the first [INDEX ], the guarded
    keyword, and the text up to the second [INDEX ] or to the end of the
    line: what follows a second occurrence is left out. *)
Theorem index_rule_outcome (lines : list str) (i : nat)
  (new_lines : list str) (line : str) :
  nth_error lines i = Some line ->
  is_create_index line = true ->
  (str_in IF_NOT_EXISTS line = true ->
   body (length lines) lines i new_lines = Ok (i + 1, new_lines ++ [line])) /\
  (str_in IF_NOT_EXISTS line = false -> str_in INDEX_sp line = false ->
   body (length lines) lines i new_lines = IndexError) /\
  (str_in IF_NOT_EXISTS line = false -> str_in INDEX_sp line = true ->
   exists p0 p1 rest,
     line = p0 ++ INDEX_sp ++ p1 ++ rest /\
     str_in INDEX_sp p0 = false /\ str_in INDEX_sp p1 = false /\
     (rest = [] \/ startswith rest INDEX_sp = true) /\
     body (length lines) lines i new_lines =
       Ok (i + 1, new_lines ++ [p0 ++ INDEX_IF_NOT_EXISTS_sp ++ p1])).
Proof.
  intros Hn Hx.
  pose proof (nth_error_nth _ _ [] Hn) as Hline.
  rewrite <- Hline in Hx |- *.
  rewrite (body_create_index _ _ _ _ Hx).
  assert (Hin : str_in INDEX (nth i lines []) = true).
  { unfold is_create_index in Hx. apply orb_true_iff in Hx.
    destruct Hx as [H|H];
      [apply (Classification.strip_startswith_iff
                67%N 88%N (py "REATE INDE") eq_refl eq_refl) in H
      |apply (Classification.strip_startswith_iff
                67%N 88%N (py "REATE UNIQUE INDE") eq_refl eq_refl) in H];
      destruct H as (ws & rest & -> & _).
    - change (67%N :: py "REATE INDE" ++ [88%N])
        with (py "CREATE " ++ INDEX ++ []).
      rewrite <- !app_assoc, app_assoc. apply str_in_app.
    - change (67%N :: py "REATE UNIQUE INDE" ++ [88%N])
        with (py "CREATE UNIQUE " ++ INDEX ++ []).
      rewrite <- !app_assoc, app_assoc. apply str_in_app. }
  rewrite Hin. split; [|split].
  - now intros ->.
  - intros -> Hs. cbn [negb andb]. cbv zeta.
    pose proof (split_absent 73%N (py "NDEX ") _ Hs) as Hab.
    change (73%N :: py "NDEX ") with INDEX_sp in Hab. now rewrite Hab.
  - intros -> Hs. cbn [negb andb]. cbv zeta.
    destruct (split_first_two 73%N (py "NDEX ") _ Hs)
      as (p0 & p1 & ps & rest & Hsp & Hl & H0 & H1 & Hrest).
    exists p0, p1, rest.
    change (73%N :: py "NDEX ") with INDEX_sp in *.
    rewrite Hsp. now repeat split.
Qed.

(** [index_rule_outcome] at the index example. *)
Lemma index_rule_outcome_witness :
  nth_error [idx_email] 0 = Some idx_email /\
  is_create_index idx_email = true /\
  str_in IF_NOT_EXISTS idx_email = false /\
  str_in INDEX_sp idx_email = true /\
  exists p0 p1 rest,
    idx_email = p0 ++ INDEX_sp ++ p1 ++ rest /\
    str_in INDEX_sp p0 = false /\ str_in INDEX_sp p1 = false /\
    (rest = [] \/ startswith rest INDEX_sp = true) /\
    body 1 [idx_email] 0 [] =
      Ok (1, [p0 ++ INDEX_IF_NOT_EXISTS_sp ++ p1]).
Proof.
  split; [reflexivity|]. split; [reflexivity|].
  split; [reflexivity|]. split; [reflexivity|].
  exact (proj2 (proj2 (index_rule_outcome [idx_email] 0 [] idx_email
                         eq_refl eq_refl)) eq_refl eq_refl).
Defined.

(** X4: what the enum branch does once a quoted type name is found.
    The statement is the lines from [i] to the first [j] at which the
    joined text holds a semicolon (or to the last line).  Without
    [AS ENUM] in it the subscript fails.  Otherwise the block is built
    from the text between the first [AS ENUM] and the second (or the end
    of the statement), stripped and without its trailing semicolons:
    what stands before the first [AS ENUM], and from a second one on, is
    left out. *)
Theorem enum_rule_outcome (lines : list str) (i : nat)
  (new_lines : list str) (line type_name : str) :
  nth_error lines i = Some line ->
  is_create_type line = true ->
  re_search_quoted CREATE_TYPE_sp line = Some type_name ->
  exists j,
    i <= j < length lines /\
    (str_in [semicolon] (join [nl] (slice lines i j)) = true
     \/ j + 1 = length lines) /\
    (forall k, i <= k < j ->
               str_in [semicolon] (join [nl] (slice lines i k)) = false) /\
    (str_in AS_ENUM (join [nl] (slice lines i j)) = false ->
     body (length lines) lines i new_lines = IndexError) /\
    (str_in AS_ENUM (join [nl] (slice lines i j)) = true ->
     exists p0 part rest,
       join [nl] (slice lines i j) = p0 ++ AS_ENUM ++ part ++ rest /\
       str_in AS_ENUM p0 = false /\ str_in AS_ENUM part = false /\
       (rest = [] \/ startswith rest AS_ENUM = true) /\
       body (length lines) lines i new_lines =
         Ok (j + 1,
             new_lines ++
             [enum_block type_name (rstrip (strip part) [semicolon])])).
Proof.
  intros Hn Hty Hre.
  destruct (Rules.enum_rewrite_with_as_enum lines i new_lines line type_name
              Hn Hty Hre) as (j & Hj & Hend & Hno & Hb).
  exists j. split; [exact Hj|]. split; [exact Hend|]. split; [exact Hno|].
  rewrite Hb. split.
  - intros Hs. pose proof (split_absent 65%N (py "S ENUM") _ Hs) as Hab.
    change (65%N :: py "S ENUM") with AS_ENUM in Hab. now rewrite Hab.
  - intros Hs.
    destruct (split_first_two 65%N (py "S ENUM") _ Hs)
      as (p0 & part & ps & rest & Hsp & Hl & H0 & H1 & Hrest).
    exists p0, part, rest.
    change (65%N :: py "S ENUM") with AS_ENUM in *.
    rewrite Hsp. now repeat split.
Qed.

(** [enum_rule_outcome] at the enum example. *)
Lemma enum_rule_outcome_witness :
  nth_error [color_enum] 0 = Some color_enum /\
  is_create_type color_enum = true /\
  re_search_quoted CREATE_TYPE_sp color_enum = Some (py "Color") /\
  exists j,
    0 <= j < 1 /\
    (str_in AS_ENUM (join [nl] (slice [color_enum] 0 j)) = true ->
     exists p0 part rest,
       join [nl] (slice [color_enum] 0 j) = p0 ++ AS_ENUM ++ part ++ rest /\
       str_in AS_ENUM p0 = false /\ str_in AS_ENUM part = false /\
       (rest = [] \/ startswith rest AS_ENUM = true) /\
       body 1 [color_enum] 0 [] =
         Ok (j + 1,
             [enum_block (py "Color") (rstrip (strip part) [semicolon])])).
Proof.
  split; [reflexivity|]. split; [reflexivity|]. split; [reflexivity|].
  destruct (enum_rule_outcome [color_enum] 0 [] color_enum (py "Color")
              eq_refl eq_refl eq_refl) as (j & Hj & _ & _ & _ & H).
  exists j. split; [exact Hj|exact H].
Defined.

(** A line that holds a semicolon is a statement of its own: the inner
    loop takes no further line. *)
Lemma accumulate_terminated (fuel : nat) (lines : list str) (i : nat)
  (stmt : str) :
  str_in [semicolon] stmt = true ->
  accumulate fuel lines i stmt = Ok (i, stmt).
Proof. intros H. now rewrite accumulate_eq, H. Qed.

(** On a line where no subscript can fail, the turn of the loop ends
    well. *)
Lemma body_returns (lines : list str) (i : nat) (acc : list str) :
  subscripts_safe (nth i lines []) = true ->
  exists i' acc', body (length lines) lines i acc = Ok (i', acc').
Proof.
  unfold subscripts_safe. intros [He Hx]%andb_true_iff.
  body_branch lines i; eauto.
  - unfold is_enum_statement in He. rewrite Hb, Hre in He. cbn in He.
    apply andb_true_iff in He as [Hs Ha].
    rewrite (accumulate_terminated _ _ _ _ Hs). cbn [bind].
    destruct (split_two 65%N (py "S ENUM") _ Ha) as (p0 & p1 & ps & Hsp).
    change (65%N :: py "S ENUM") with AS_ENUM in Hsp.
    unfold subscript. rewrite Hsp. cbn. eauto.
  - rewrite Hb in Hx. cbn [negb orb] in Hx.
    destruct (str_in INDEX _ && negb _) eqn:E; eauto.
    apply andb_true_iff in E as [_ E%negb_true_iff].
    rewrite E in Hx. cbn [orb] in Hx. cbv zeta.
    destruct (split_two 73%N (py "NDEX ") _ Hx) as (p0 & p1 & ps & Hsp).
    change (73%N :: py "NDEX ") with INDEX_sp in Hsp.
    unfold subscript. rewrite Hsp. cbn. eauto.
  - destruct (re_search_quoted ALTER_TABLE_sp _);
      [destruct (re_search_quoted ADD_CONSTRAINT_sp _)|]; eauto.
    destruct (accumulate_total (length lines) lines i (nth i lines []))
      as (j & stmt & ->); [lia|].
    cbn [bind]. eauto.
Qed.

Lemma loop_returns (lines : list str) :
  Forall (fun l => subscripts_safe l = true) lines ->
  forall fuel i acc,
    length lines <= fuel + i ->
    exists out, loop fuel (length lines) lines i acc = Ok out.
Proof.
  intros Hall. induction fuel as [|fuel IH]; intros i acc Hf;
    rewrite loop_eq; destruct (Nat.ltb_spec i (length lines)) as [Hi|Hi];
    eauto; try lia.
  destruct (body_returns lines i acc) as (i' & acc' & Hb).
  - rewrite Forall_forall in Hall. apply Hall. now apply nth_In.
  - rewrite Hb. cbn [bind]. apply IH.
    apply body_advances in Hb. lia.
Qed.

(** X5: [make_safe] returns on every script in which each enum statement
    holds its semicolon and [AS ENUM] on its opening line, and each
    index line holds the guard or the keyword followed by a space: no
    other line can make a subscript fail. *)
Theorem make_safe_returns (sql_content : str) :
  forallb subscripts_safe (split sql_content [nl]) = true ->
  exists out, make_safe sql_content = Ok out.
Proof.
  intros H. unfold make_safe, make_safe_fuel.
  destruct (loop_returns (split sql_content [nl])) with
    (fuel := length (split sql_content [nl])) (i := 0) (acc := @nil (list N))
    as (outs & ->); [|lia|cbn [bind]; eauto].
  rewrite forallb_forall in H. now apply Forall_forall.
Qed.

(** [make_safe_returns] at [migration]. *)
Lemma make_safe_returns_witness :
  forallb subscripts_safe (split (join [nl] migration) [nl]) = true /\
  exists out, make_safe (join [nl] migration) = Ok out.
Proof.
  split; [vm_compute; reflexivity|].
  exact (make_safe_returns (join [nl] migration) eq_refl).
Defined.

End Errors.


(* ================================================================= *)
(** ** Scripts put together *)

Module Composition.
Import Py PyFacts Migration MigrationFacts Notions.

(** *** Lists of lines *)

Lemma str_in_char_In (c : char) (s : str) :
  str_in [c] s = true <-> In c s.
Proof.
  induction s as [|d s IH]; [split; [discriminate|intros []]|].
  change (str_in [c] (d :: s))
    with ((c =? d)%N && startswith s [] || str_in [c] s).
  rewrite startswith_nil, andb_true_r, orb_true_iff, N.eqb_eq, IH.
  simpl. intuition.
Qed.

Lemma str_in_char_app (c : char) (s t : str) :
  str_in [c] (s ++ t) = str_in [c] s || str_in [c] t.
Proof.
  apply eq_true_iff_eq.
  rewrite orb_true_iff, !str_in_char_In, in_app_iff. reflexivity.
Qed.

Lemma join_app (sep : str) (l1 l2 : list str) :
  l1 <> [] -> l2 <> [] ->
  join sep (l1 ++ l2) = join sep l1 ++ sep ++ join sep l2.
Proof.
  intros H1 H2. induction l1 as [|x l1 IH]; [contradiction|].
  destruct l1 as [|y l1].
  - simpl app. now rewrite (join_cons sep x l2 H2).
  - change ((x :: y :: l1) ++ l2) with (x :: (y :: l1) ++ l2).
    rewrite (join_cons sep x ((y :: l1) ++ l2)) by discriminate.
    rewrite IH by discriminate.
    rewrite (join_cons sep x (y :: l1)) by discriminate.
    now rewrite <- !app_assoc.
Qed.

(** *** The inner loop on a longer script *)

(** An accumulation that meets a semicolon ends with it. *)
Lemma accumulate_finds (fuel : nat) (lines : list str) :
  forall i stmt j stmt',
    str_in [semicolon] stmt = true \/
    (exists k, i < k < length lines /\
               str_in [semicolon] (nth k lines []) = true) ->
    accumulate fuel lines i stmt = Ok (j, stmt') ->
    str_in [semicolon] stmt' = true.
Proof.
  induction fuel as [|fuel IH]; intros i stmt j stmt' Hk;
    rewrite accumulate_eq; destruct (negb _ && _) eqn:E; try discriminate.
  - intros [= <- <-]. destruct Hk as [H|(k & Hk & _)]; [exact H|].
    apply andb_false_iff in E as [E|E].
    + now apply negb_false_iff in E.
    + apply Nat.ltb_ge in E. lia.
  - apply IH. apply andb_true_iff in E as [Es El].
    apply negb_true_iff in Es.
    destruct Hk as [H|(k & Hk & Hs)]; [congruence|].
    destruct (Nat.eq_dec k (i + 1)) as [->|Hne].
    + left. change (stmt ++ nl :: nth (i + 1) lines [])
        with (stmt ++ [nl] ++ nth (i + 1) lines []).
      rewrite !str_in_char_app, Hs. now rewrite !orb_true_r.
    + right. exists k. split; [lia|exact Hs].
  - intros [= <- <-]. destruct Hk as [H|(k & Hk & _)]; [exact H|].
    apply andb_false_iff in E as [E|E].
    + now apply negb_false_iff in E.
    + apply Nat.ltb_ge in E. lia.
Qed.

(** An accumulation that ends with a semicolon is the same when lines
    are added after the script. *)
Lemma accumulate_prefix (fuel : nat) (la lb : list str) :
  forall i stmt j stmt',
    accumulate fuel la i stmt = Ok (j, stmt') ->
    str_in [semicolon] stmt' = true ->
    accumulate fuel (la ++ lb) i stmt = Ok (j, stmt').
Proof.
  induction fuel as [|fuel IH]; intros i stmt j stmt';
    rewrite !(accumulate_eq _ _ i stmt);
    destruct (Nat.ltb_spec (i + 1) (length la)) as [Hl|Hl];
    destruct (str_in [semicolon] stmt) eqn:Es; cbn [negb andb];
    try discriminate; try (intros [= <- <-]; congruence);
    try (intros [= <- <-] _; reflexivity).
  rewrite length_app.
  destruct (Nat.ltb_spec (i + 1) (length la + length lb)); [|lia].
  rewrite app_nth1 by lia. apply IH.
Qed.

(** The inner loop on lines put after other lines. *)
Lemma accumulate_shift (fuel : nat) (la lb : list str) :
  forall i stmt,
    accumulate fuel (la ++ lb) (length la + i) stmt =
    let* (j, stmt') := accumulate fuel lb i stmt in
    Ok (length la + j, stmt').
Proof.
  induction fuel as [|fuel IH]; intros i stmt;
    rewrite (accumulate_eq _ (la ++ lb)), (accumulate_eq _ lb);
    rewrite length_app;
    replace (length la + i + 1 <? length la + length lb)
      with (i + 1 <? length lb)
      by (destruct (Nat.ltb_spec (i + 1) (length lb));
          destruct (Nat.ltb_spec (length la + i + 1) (length la + length lb));
          reflexivity || lia);
    destruct (negb _ && _); try reflexivity.
  replace (length la + i + 1) with (length la + (i + 1)) by lia.
  rewrite IH. now rewrite app_nth2_plus.
Qed.

Lemma accumulate_bound (fuel : nat) (lines : list str) :
  forall i stmt j stmt',
    i < length lines ->
    accumulate fuel lines i stmt = Ok (j, stmt') -> j < length lines.
Proof.
  induction fuel as [|fuel IH]; intros i stmt j stmt' Hi;
    rewrite accumulate_eq; destruct (_ && (_ <? _)) eqn:E;
    try discriminate; try (intros [= <- _]; exact Hi).
  apply IH. apply andb_true_iff in E as [_ E%Nat.ltb_lt]. lia.
Qed.

(** *** Terminated statements *)

Lemma statements_terminated_spec (lines : list str) :
  statements_terminated lines = true ->
  forall i,
    i < length lines ->
    opens_statement (nth i lines []) = true ->
    exists k, i <= k < length lines /\
              str_in [semicolon] (nth k lines []) = true.
Proof.
  induction lines as [|l lines IH]; intros Ht i Hi Ho; [simpl in Hi; lia|].
  cbn [statements_terminated] in Ht. apply andb_true_iff in Ht as [Hl Ht].
  destruct i as [|i].
  - simpl in Ho. rewrite Ho in Hl. cbn [negb orb] in Hl.
    apply existsb_exists in Hl as (x & Hx & Hs).
    destruct (In_nth _ _ [] Hx) as (k & Hk & <-).
    exists k. split; [lia|exact Hs].
  - simpl in Hi, Ho. destruct (IH Ht i) as (k & Hk & Hs); [lia|exact Ho|].
    exists (S k). split; [simpl; lia|exact Hs].
Qed.

(** *** One turn of the loop on a longer script *)

Lemma body_prefix (la lb : list str) (i : nat) (acc : list str)
  (inner inner' : nat) :
  statements_terminated la = true ->
  i < length la -> length la <= inner + i + 1 -> inner <= inner' ->
  body inner' (la ++ lb) i acc = body inner la i acc.
Proof.
  intros Ht Hi Hin Hle.
  assert (Hacc : opens_statement (nth i la []) = true ->
                 accumulate inner' (la ++ lb) i (nth i la []) =
                 accumulate inner la i (nth i la [])).
  { intros Ho.
    destruct (accumulate_total inner la i (nth i la []) Hin)
      as (j & stmt & Ea).
    rewrite Ea. rewrite (accumulate_mono inner inner' (la ++ lb) Hle).
    - apply accumulate_prefix; [exact Ea|].
      apply (accumulate_finds inner la i (nth i la []) j stmt); [|exact Ea].
      destruct (statements_terminated_spec la Ht i Hi Ho) as (k & Hk & Hs).
      destruct (Nat.eq_dec k i) as [->|Hne]; [now left|].
      right. exists k. split; [lia|exact Hs].
    - rewrite (accumulate_prefix inner la lb i _ j stmt Ea); [reflexivity|].
      apply (accumulate_finds inner la i (nth i la []) j stmt); [|exact Ea].
      destruct (statements_terminated_spec la Ht i Hi Ho) as (k & Hk & Hs).
      destruct (Nat.eq_dec k i) as [->|Hne]; [now left|].
      right. exists k. split; [lia|exact Hs]. }
  unfold opens_statement, is_enum_statement, is_constraint_statement,
    is_add_constraint, is_create_type in Hacc.
  unfold body. rewrite app_nth1 by exact Hi. cbv zeta.
  destruct (startswith (strip (nth i la [])) CREATE_TYPE).
  - destruct (re_search_quoted CREATE_TYPE_sp _); [|reflexivity].
    now rewrite Hacc.
  - destruct (startswith (strip (nth i la [])) CREATE_TABLE); [reflexivity|].
    destruct (startswith (strip (nth i la [])) CREATE_INDEX
              || startswith (strip (nth i la [])) CREATE_UNIQUE_INDEX);
      [reflexivity|].
    destruct (startswith (strip (nth i la [])) ALTER_TABLE
              && str_in ADD_CONSTRAINT (nth i la []));
      [|reflexivity].
    destruct (re_search_quoted ALTER_TABLE_sp _); [|reflexivity].
    destruct (re_search_quoted ADD_CONSTRAINT_sp _); [|reflexivity].
    now rewrite Hacc.
Qed.

Lemma body_shift (la lb : list str) (i : nat) (acc : list str)
  (inner : nat) :
  body inner (la ++ lb) (length la + i) acc =
  let* (i', acc') := body inner lb i acc in Ok (length la + i', acc').
Proof.
  unfold body. rewrite app_nth2_plus. cbv zeta.
  replace (length la + i + 1) with (length la + (i + 1)) by lia.
  destruct (startswith (strip (nth i lb [])) CREATE_TYPE).
  - destruct (re_search_quoted CREATE_TYPE_sp _); [|reflexivity].
    rewrite accumulate_shift.
    destruct (accumulate inner lb i _) as [[j stmt]| |]; try reflexivity.
    cbn [bind]. destruct (subscript _ 1); try reflexivity.
    cbn [bind]. now replace (length la + j + 1) with (length la + (j + 1))
      by lia.
  - destruct (startswith (strip (nth i lb [])) CREATE_TABLE); [reflexivity|].
    destruct (_ || _).
    { destruct (_ && _); [|reflexivity]. cbv zeta.
      destruct (subscript _ 0); try reflexivity. cbn [bind].
      destruct (subscript _ 1); reflexivity. }
    destruct (startswith (strip (nth i lb [])) ALTER_TABLE && _);
      [|reflexivity].
    destruct (re_search_quoted ALTER_TABLE_sp _); [|reflexivity].
    destruct (re_search_quoted ADD_CONSTRAINT_sp _); [|reflexivity].
    rewrite accumulate_shift.
    destruct (accumulate inner lb i _) as [[j stmt]| |]; try reflexivity.
    cbn [bind]. now replace (length la + j + 1) with (length la + (j + 1))
      by lia.
Qed.

(** A turn of the loop stays within the script and emits one entry. *)
Lemma body_bound (inner : nat) (lines : list str) (i : nat)
  (acc : list str) (i' : nat) (acc' : list str) :
  i < length lines ->
  body inner lines i acc = Ok (i', acc') ->
  i' <= length lines /\ exists x, acc' = acc ++ [x].
Proof.
  intros Hi. body_branch lines i.
  - intros [= <- <-]. split; [lia|eauto].
  - destruct (accumulate _ _ _ _) as [[j stmt]| |] eqn:Ea; try discriminate.
    apply accumulate_bound in Ea; [|exact Hi]. cbn [bind].
    destruct (subscript _ _); try discriminate.
    intros [= <- <-]. split; [lia|eauto].
  - intros [= <- <-]. split; [lia|eauto].
  - intros [= <- <-]. split; [lia|eauto].
  - destruct (_ && _); [|intros [= <- <-]; split; [lia|eauto]].
    cbv zeta. destruct (subscript _ 0); try discriminate. cbn [bind].
    destruct (subscript _ 1); try discriminate.
    intros [= <- <-]. split; [lia|eauto].
  - destruct (re_search_quoted ALTER_TABLE_sp _);
      [destruct (re_search_quoted ADD_CONSTRAINT_sp _)|];
      try (intros [= <- <-]; split; [lia|eauto]).
    destruct (accumulate _ _ _ _) as [[j stmt]| |] eqn:Ea; try discriminate.
    apply accumulate_bound in Ea; [|exact Hi].
    intros [= <- <-]. split; [lia|eauto].
Qed.

(** *** The outer loop on a longer script *)

Lemma loop_shift (la lb : list str) (inner : nat) :
  forall fuel i acc,
    loop fuel inner (la ++ lb) (length la + i) acc = loop fuel inner lb i acc.
Proof.
  induction fuel as [|fuel IH]; intros i acc;
    rewrite (loop_eq _ _ (la ++ lb)), (loop_eq _ _ lb), length_app;
    replace (length la + i <? length la + length lb) with (i <? length lb)
      by (destruct (Nat.ltb_spec i (length lb));
          destruct (Nat.ltb_spec (length la + i) (length la + length lb));
          reflexivity || lia);
    destruct (i <? length lb); try reflexivity.
  rewrite body_shift.
  destruct (body inner lb i acc) as [[i' acc']| |]; try reflexivity.
  cbn [bind]. apply IH.
Qed.

(** From a cursor inside the script, the outer loop emits something. *)
Lemma loop_emits (inner : nat) (lines : list str) :
  forall fuel i out,
    i < length lines ->
    loop fuel inner lines i [] = Ok out -> out <> [].
Proof.
  intros fuel i out Hi. rewrite loop_eq.
  destruct (Nat.ltb_spec i (length lines)); [|lia].
  destruct fuel as [|fuel]; [discriminate|].
  destruct (body inner lines i []) as [[i' o]| |] eqn:Eb; try discriminate.
  destruct (body_bound _ _ _ _ _ _ Hi Eb) as (_ & x & ->).
  cbn [bind app]. rewrite loop_acc.
  destruct (loop fuel inner lines i' []); try discriminate.
  cbn [bind app]. intros [= <-]. discriminate.
Qed.

(** With every statement of [la] terminated within [la], the outer loop
    on [la ++ lb] does on [la] what it does on [la] alone, and reaches
    the first line of [lb]. *)
Lemma loop_prefix (la lb : list str) (inner' : nat) :
  statements_terminated la = true ->
  length (la ++ lb) <= inner' ->
  forall fuel i acc,
    i <= length la ->
    length (la ++ lb) <= fuel + i ->
    loop fuel inner' (la ++ lb) i acc =
    let* out := loop fuel (length la) la i acc in
    loop fuel inner' (la ++ lb) (length la) out.
Proof.
  intros Ht Hin. rewrite length_app in Hin.
  induction fuel as [|fuel IH]; intros i acc Hi Hf; rewrite length_app in Hf.
  - assert (i = length la) as -> by lia.
    rewrite (loop_eq 0 (length la) la), Nat.ltb_irrefl. reflexivity.
  - destruct (Nat.eq_dec i (length la)) as [->|Hne].
    + rewrite (loop_eq _ (length la) la), Nat.ltb_irrefl. reflexivity.
    + assert (Hlt : i < length la) by lia.
      rewrite (loop_eq _ _ (la ++ lb) i), (loop_eq _ _ la i), length_app.
      destruct (Nat.ltb_spec i (length la + length lb)); [|lia].
      destruct (Nat.ltb_spec i (length la)); [|lia].
      rewrite (body_prefix la lb i acc (length la) inner' Ht Hlt)
        by lia.
      destruct (body (length la) la i acc) as [[i' acc']| |] eqn:Eb;
        try reflexivity.
      destruct (body_bound _ _ _ _ _ _ Hlt Eb) as (Hb & _).
      apply body_advances in Eb. cbn [bind].
      rewrite IH by (rewrite ?length_app; lia).
      destruct (loop fuel (length la) la i' acc'); try reflexivity.
      cbn [bind]. symmetry. apply loop_mono; try lia.
      apply loop_total; rewrite length_app; lia.
Qed.

(** With every statement of [la] terminated within [la], the outer loop
    on [la ++ lb] emits what it emits on [la], then what it emits on
    [lb]. *)
Lemma loop_app (la lb : list str) :
  statements_terminated la = true ->
  loop (length (la ++ lb)) (length (la ++ lb)) (la ++ lb) 0 [] =
  let* oa := loop (length la) (length la) la 0 [] in
  let* ob := loop (length lb) (length lb) lb 0 [] in
  Ok (oa ++ ob).
Proof.
  intros Ht.
  rewrite (loop_prefix la lb _ Ht (le_n _)) by lia.
  rewrite (loop_mono (length la) (length la) la (le_n _)
             (length la) (length (la ++ lb)) 0 [])
    by (rewrite ?length_app; try lia; apply loop_total; lia).
  destruct (loop (length la) (length la) la 0 []) as [oa| |];
    try reflexivity.
  cbn [bind].
  pose proof (loop_shift la lb (length (la ++ lb)) (length (la ++ lb)) 0 oa)
    as Hs.
  rewrite Nat.add_0_r in Hs. rewrite Hs, loop_acc.
  now rewrite (loop_mono (length lb) (length (la ++ lb)) lb
                 ltac:(rewrite length_app; lia)
                 (length lb) (length (la ++ lb)) 0 [])
    by (rewrite ?length_app; try lia; apply loop_total; lia).
Qed.

Lemma split_length_pos (s : str) : 0 < length (split s [nl]).
Proof.
  pose proof (split_not_nil nl [] s).
  destruct (split s [nl]); [contradiction|simpl; lia].
Qed.

(** X6: scripts compose.  When every statement opened in the first
    script holds or is followed by a semicolon within it, transforming
    the two scripts put one after the other, a line feed between them,
    gives the two transformed scripts one after the other; a failure on
    the first script, or else on the second, is the failure of the
    whole. *)
Theorem make_safe_app (a b : str) :
  statements_terminated (split a [nl]) = true ->
  make_safe (a ++ nl :: b) =
  let* a' := make_safe a in
  let* b' := make_safe b in
  Ok (a' ++ nl :: b').
Proof.
  intros Ht. unfold make_safe, make_safe_fuel.
  rewrite split_app_char, (loop_app _ _ Ht).
  destruct (loop _ _ (split a [nl]) 0 []) as [oa| |] eqn:Ea;
    try reflexivity.
  cbn [bind].
  destruct (loop _ _ (split b [nl]) 0 []) as [ob| |] eqn:Eb;
    try reflexivity.
  cbn [bind]. f_equal.
  apply loop_emits in Ea; [|apply split_length_pos].
  apply loop_emits in Eb; [|apply split_length_pos].
  now rewrite join_app.
Qed.

(** [make_safe_app] at [fk_script], whose constraint statement ends on
    its third line, followed by a table. *)
Lemma make_safe_app_witness :
  statements_terminated (split (join [nl] Samples.fk_script) [nl]) = true /\
  make_safe (join [nl] Samples.fk_script ++ nl :: Samples.users_table) =
  Ok (join [nl] Samples.fk_script_safe ++ nl :: Samples.users_table_safe).
Proof.
  split; [vm_compute; reflexivity|].
  rewrite (make_safe_app (join [nl] Samples.fk_script) Samples.users_table
             eq_refl).
  vm_compute. reflexivity.
Defined.

(** *** Line by line *)

Lemma each_line_length (lines outs : list str) :
  each_line lines = Ok outs -> length outs = length lines.
Proof.
  revert outs; induction lines as [|l lines IH]; intros outs.
  - now intros [= <-].
  - cbn [each_line]. destruct (make_safe l); try discriminate. cbn [bind].
    destruct (each_line lines) as [os| |]; try discriminate. cbn [bind].
    intros [= <-]. simpl. f_equal. now apply IH.
Qed.

Lemma make_safe_join_lines (lines : list str) :
  lines <> [] ->
  Forall (fun l => str_in [nl] l = false) lines ->
  Forall (fun l => negb (opens_statement l) || str_in [semicolon] l = true)
         lines ->
  (let* outs := loop (length lines) (length lines) lines 0 [] in
   Ok (join [nl] outs)) =
  let* outs := each_line lines in Ok (join [nl] outs).
Proof.
  induction lines as [|l lines IH]; [contradiction|].
  intros _ Hnl Hs.
  inversion Hnl as [|? ? Hl Hnl']; subst.
  inversion Hs as [|? ? Hls Hs']; subst.
  assert (Hone : make_safe l =
                 let* outs := loop 1 1 [l] 0 [] in Ok (join [nl] outs)).
  { unfold make_safe, make_safe_fuel.
    now rewrite (split_absent nl [] l Hl). }
  destruct lines as [|l' lines].
  - cbn [each_line length]. rewrite Hone.
    destruct (loop 1 1 [l] 0 []); reflexivity.
  - change (l :: l' :: lines) with ([l] ++ (l' :: lines)) at 1 2 3.
    rewrite loop_app
      by (cbn [statements_terminated existsb];
          now rewrite orb_false_r, andb_true_r).
    cbn [each_line]. rewrite Hone.
    specialize (IH ltac:(discriminate) Hnl' Hs').
    cbn [length] in *.
    destruct (loop 1 1 [l] 0 []) as [oa| |] eqn:Ea; try reflexivity.
    cbn [bind].
    destruct (loop _ _ (l' :: lines) 0 []) as [ob| |] eqn:Eb;
      cbn [bind] in IH |- *.
    + apply loop_emits in Ea; [|simpl; lia].
      apply loop_emits in Eb; [|simpl; lia].
      rewrite join_app by assumption.
      cbn [each_line] in IH.
      destruct (make_safe l') as [o'| |]; try discriminate.
      cbn [bind] in IH |- *.
      destruct (each_line lines) as [os| |]; try discriminate.
      cbn [bind] in IH |- *. injection IH as IH.
      rewrite IH. now rewrite join_cons by discriminate.
    + cbn [each_line] in IH.
      destruct (make_safe l') as [o'| |]; try discriminate; try reflexivity.
      cbn [bind] in IH |- *.
      destruct (each_line lines) as [os| |]; try discriminate; reflexivity.
    + cbn [each_line] in IH.
      destruct (make_safe l') as [o'| |]; try discriminate; try reflexivity.
      cbn [bind] in IH |- *.
      destruct (each_line lines) as [os| |]; try discriminate; reflexivity.
Qed.

(** X7: when every line that opens a statement holds a semicolon itself,
    the script is transformed line by line: the output is the outputs of
    [make_safe] on each line alone, joined by line feeds. *)
Theorem make_safe_line_by_line (sql_content : str) :
  forallb (fun l => negb (opens_statement l) || str_in [semicolon] l)
          (split sql_content [nl]) = true ->
  make_safe sql_content =
  let* outs := each_line (split sql_content [nl]) in Ok (join [nl] outs).
Proof.
  intros H. unfold make_safe at 1. unfold make_safe_fuel.
  apply make_safe_join_lines.
  - apply split_not_nil.
  - apply split_pieces_no_char.
  - rewrite forallb_forall in H. now apply Forall_forall.
Qed.

(** [make_safe_line_by_line] at a script of three one-line statements. *)
Lemma make_safe_line_by_line_witness :
  forallb (fun l => negb (opens_statement l) || str_in [semicolon] l)
          (split (join [nl] [Samples.color_enum; Samples.users_table;
                             Samples.fk_user]) [nl]) = true /\
  make_safe (join [nl] [Samples.color_enum; Samples.users_table;
                        Samples.fk_user]) =
  Ok (join [nl] [Samples.color_enum_safe; Samples.users_table_safe;
                 Samples.fk_user_safe]).
Proof.
  split; [vm_compute; reflexivity|].
  rewrite (make_safe_line_by_line
             (join [nl] [Samples.color_enum; Samples.users_table;
                         Samples.fk_user]) eq_refl).
  vm_compute. reflexivity.
Defined.

End Composition.


(* ================================================================= *)
(** ** The quoted names *)

Module Names.
Import Py PyFacts Migration.

(** The run of characters other than a double quote is a prefix without
    double quote, and what follows it is empty or starts with one. *)
Lemma unquoted_run_spec (t : str) :
  t = unquoted_run t ++ skipn (length (unquoted_run t)) t /\
  ~ In dquote (unquoted_run t) /\
  (skipn (length (unquoted_run t)) t = [] \/
   exists post, skipn (length (unquoted_run t)) t = dquote :: post).
Proof.
  induction t as [|c t (IH1 & IH2 & IH3)]; [simpl; intuition|].
  cbn [unquoted_run]. destruct (N.eqb_spec c dquote) as [->|Hc].
  - simpl. split; [reflexivity|]. split; [tauto|]. right. now exists t.
  - cbn [length skipn app]. split; [now rewrite <- IH1|].
    split; [|exact IH3]. intros [H|H]; [congruence|contradiction].
Qed.

Lemma unquoted_run_app (name post : str) :
  ~ In dquote name -> unquoted_run (name ++ dquote :: post) = name.
Proof.
  induction name as [|c name IH]; intros Hn.
  - reflexivity.
  - cbn [app unquoted_run]. destruct (N.eqb_spec c dquote) as [->|Hc].
    + exfalso. apply Hn. now left.
    + rewrite IH; [reflexivity|]. intros H. apply Hn. now right.
Qed.

(** A match at the start of the string. *)
Lemma re_match_quoted_iff (kw s name : str) :
  re_match_quoted kw s = Some name <->
  name <> [] /\ ~ In dquote name /\
  exists post, s = kw ++ dquote :: name ++ dquote :: post.
Proof.
  unfold re_match_quoted. split.
  - destruct (startswith s (kw ++ [dquote])) eqn:E; [|discriminate].
    destruct (startswith_inv _ _ E) as (t & ->).
    rewrite <- app_assoc.
    replace (length kw + 1) with (length (kw ++ [dquote]))
      by (rewrite length_app; reflexivity).
    rewrite app_assoc, skipn_app, skipn_all, Nat.sub_diag. cbn [app skipn].
    destruct (unquoted_run_spec t) as (Ht & Hq & Hpost).
    destruct (unquoted_run t) as [|c r] eqn:Er; [discriminate|].
    destruct Hpost as [Hp|(post & Hp)]; rewrite Hp; [discriminate|].
    rewrite N.eqb_refl. intros [= <-].
    split; [discriminate|]. split; [exact Hq|].
    exists post. rewrite Ht at 1. rewrite Hp. now rewrite <- app_assoc.
  - intros (Hne & Hq & post & ->).
    replace (kw ++ dquote :: name ++ dquote :: post)
      with ((kw ++ [dquote]) ++ name ++ dquote :: post)
      by now rewrite <- app_assoc.
    rewrite startswith_app.
    replace (length kw + 1) with (length (kw ++ [dquote]))
      by (rewrite length_app; reflexivity).
    rewrite skipn_app, skipn_all, Nat.sub_diag. cbn [app skipn].
    rewrite (unquoted_run_app name post Hq).
    destruct name as [|n l]; [contradiction|].
    rewrite skipn_app, skipn_all, Nat.sub_diag. cbn [app skipn].
    now rewrite N.eqb_refl.
Qed.

(** X8: what the search for a quoted name gives.  A name that is found
    is not empty, holds no double quote and stands in the line between
    double quotes right after the keyword text, at the leftmost place
    where such a name stands; no name is found exactly when the line
    has no such place. *)
Theorem quoted_name_found (kw line : str) :
  (forall name,
      re_search_quoted kw line = Some name ->
      name <> [] /\ ~ In dquote name /\
      exists pre post,
        line = pre ++ kw ++ dquote :: name ++ dquote :: post /\
        forall pre2 name2 post2,
          name2 <> [] -> ~ In dquote name2 ->
          line = pre2 ++ kw ++ dquote :: name2 ++ dquote :: post2 ->
          length pre <= length pre2) /\
  (re_search_quoted kw line = None <->
   forall pre name post,
     name <> [] -> ~ In dquote name ->
     line <> pre ++ kw ++ dquote :: name ++ dquote :: post).
Proof.
  induction line as [|c line (IHs & IHn)].
  - cbn [re_search_quoted]. split.
    + intros name. destruct (re_match_quoted kw []) as [g|] eqn:E;
        [|discriminate].
      intros [= <-]. apply re_match_quoted_iff in E as (Hne & Hq & post & Hl).
      split; [exact Hne|]. split; [exact Hq|].
      exists [], post. split; [exact Hl|]. intros; simpl; lia.
    + destruct (re_match_quoted kw []) as [g|] eqn:E.
      * apply re_match_quoted_iff in E as (Hne & Hq & post & Hl).
        split; [discriminate|]. intros H. exfalso.
        now apply (H [] g post).
      * split; [|reflexivity]. intros _ pre name post Hne Hq Hl.
        destruct pre; [|discriminate].
        assert (re_match_quoted kw [] = Some name) as Hm
            by (apply re_match_quoted_iff; eauto).
        congruence.
  - cbn [re_search_quoted].
    destruct (re_match_quoted kw (c :: line)) as [g|] eqn:E.
    + apply re_match_quoted_iff in E as (Hne & Hq & post & Hl). split.
      * intros name [= <-]. split; [exact Hne|]. split; [exact Hq|].
        exists [], post. split; [exact Hl|]. intros; simpl; lia.
      * split; [discriminate|]. intros H. exfalso.
        now apply (H [] g post).
    + assert (Hfirst : forall name post,
                 name <> [] -> ~ In dquote name ->
                 c :: line <> kw ++ dquote :: name ++ dquote :: post).
      { intros name post Hne Hq Hl.
        assert (re_match_quoted kw (c :: line) = Some name) as Hm
            by (apply re_match_quoted_iff; eauto).
        congruence. }
      split.
      * intros name Hs. destruct (IHs name Hs)
          as (Hne & Hq & pre & post & Hl & Hleft).
        split; [exact Hne|]. split; [exact Hq|].
        exists (c :: pre), post. split; [now rewrite Hl|].
        intros pre2 name2 post2 Hne2 Hq2 Hl2.
        destruct pre2 as [|d pre2];
          [now apply Hfirst in Hl2|].
        injection Hl2 as _ Hl2. simpl.
        apply le_n_S. now apply (Hleft pre2 name2 post2).
      * rewrite IHn. split.
        -- intros H pre name post Hne Hq Hl.
           destruct pre as [|d pre]; [now apply Hfirst in Hl|].
           injection Hl as _ Hl. now apply (H pre name post).
        -- intros H pre name post Hne Hq Hl.
           apply (H (c :: pre) name post Hne Hq). now rewrite Hl.
Qed.

End Names.


(* ================================================================= *)
(** ** A statement without its semicolon *)

Module Unterminated.
Import Py PyFacts Migration MigrationFacts Notions Composition.

Lemma str_in_semicolon_join (ls : list str) :
  Forall (fun l => str_in [semicolon] l = false) ls ->
  str_in [semicolon] (join [nl] ls) = false.
Proof.
  induction 1 as [|l ls Hl Hls IH]; [reflexivity|].
  destruct ls as [|l' ls]; [exact Hl|].
  rewrite join_cons by discriminate.
  rewrite !str_in_char_app, Hl, IH. reflexivity.
Qed.

Lemma slice_to_end (lines : list str) (i : nat) :
  slice lines i (length lines - 1) = skipn i lines.
Proof.
  unfold slice. apply firstn_all2. rewrite length_skipn. lia.
Qed.

(** Without a semicolon from line [i] on, the inner loop takes every
    line that is left. *)
Lemma accumulate_rest (lines : list str) (i : nat) :
  i < length lines ->
  Forall (fun l => str_in [semicolon] l = false) (skipn i lines) ->
  accumulate (length lines) lines i (nth i lines []) =
  Ok (length lines - 1, join [nl] (skipn i lines)).
Proof.
  intros Hi Hno.
  destruct (accumulate_total (length lines) lines i (nth i lines []))
    as (j & stmt & Ea); [lia|].
  destruct (accumulate_spec _ lines i i _ j stmt (conj (le_n i) Hi)
              (eq_sym (f_equal (join [nl]) (slice_one lines i Hi))) Ea)
    as (Hj & -> & Hend & _).
  assert (Hs : str_in [semicolon] (join [nl] (slice lines i j)) = false).
  { apply str_in_semicolon_join. apply Forall_forall. intros l Hl.
    rewrite Forall_forall in Hno. apply Hno.
    unfold slice in Hl.
    rewrite <- (firstn_skipn (j + 1 - i) (skipn i lines)).
    apply in_or_app. now left. }
  destruct Hend as [Hend|Hend]; [congruence|].
  assert (j = length lines - 1) as -> by lia.
  rewrite Ea. now rewrite slice_to_end.
Qed.

(** X10: a statement that is never terminated takes the rest of the
    script.  At a line that opens a constraint statement, when no line
    from there on holds a semicolon, the block holds all the lines that
    are left and the outer loop ends with it: no later line is
    classified.  For an enum statement likewise, the block being built
    from all the lines that are left. *)
Theorem unterminated_statement_takes_rest (lines : list str) (i : nat)
  (new_lines : list str) (line : str) :
  nth_error lines i = Some line ->
  forallb (fun l => negb (str_in [semicolon] l)) (skipn i lines) = true ->
  (forall table_name constraint_name,
      is_add_constraint line = true ->
      re_search_quoted ALTER_TABLE_sp line = Some table_name ->
      re_search_quoted ADD_CONSTRAINT_sp line = Some constraint_name ->
      forall fuel,
        loop (S fuel) (length lines) lines i new_lines =
        Ok (new_lines ++
            [constraint_block constraint_name (join [nl] (skipn i lines))])) /\
  (forall type_name,
      is_create_type line = true ->
      re_search_quoted CREATE_TYPE_sp line = Some type_name ->
      forall fuel,
        loop (S fuel) (length lines) lines i new_lines =
        match split (join [nl] (skipn i lines)) AS_ENUM with
        | _ :: part :: _ =>
            Ok (new_lines ++
                [enum_block type_name (rstrip (strip part) [semicolon])])
        | _ => IndexError
        end).
Proof.
  intros Hn Hno.
  pose proof (nth_error_nth _ _ [] Hn) as Hline.
  assert (Hi : i < length lines) by (apply nth_error_Some; congruence).
  assert (Hno' : Forall (fun l => str_in [semicolon] l = false)
                   (skipn i lines)).
  { rewrite forallb_forall in Hno. apply Forall_forall. intros l Hl.
    apply negb_true_iff. now apply Hno. }
  assert (Hdone : forall fuel acc,
             loop fuel (length lines) lines (length lines - 1 + 1) acc
             = Ok acc).
  { intros fuel acc. rewrite loop_eq.
    destruct (Nat.ltb_spec (length lines - 1 + 1) (length lines));
      [lia|reflexivity]. }
  rewrite <- Hline. split.
  - intros table_name constraint_name Hc Ht Hcn fuel.
    rewrite loop_eq. destruct (Nat.ltb_spec i (length lines)); [|lia].
    rewrite (body_add_constraint _ _ _ _ Hc), Ht, Hcn.
    rewrite (accumulate_rest lines i Hi Hno'). cbn [bind]. apply Hdone.
  - intros type_name Hty Hre fuel.
    rewrite loop_eq. destruct (Nat.ltb_spec i (length lines)); [|lia].
    rewrite (body_create_type _ _ _ _ _ Hty Hre).
    rewrite (accumulate_rest lines i Hi Hno'). cbn [bind].
    unfold subscript.
    destruct (split _ AS_ENUM) as [|p0 [|part ps]]; try reflexivity.
    cbn [nth_error bind]. apply Hdone.
Qed.

(** [unterminated_statement_takes_rest] at a constraint without
    semicolon, followed by a table that is then not rewritten. *)
Lemma unterminated_statement_takes_rest_witness :
  nth_error [Samples.fk_unquoted; fk_open;
             py "CREATE TABLE t (id INT)"] 1
    = Some fk_open /\
  forallb (fun l => negb (str_in [semicolon] l))
          (skipn 1 [Samples.fk_unquoted; fk_open;
                    py "CREATE TABLE t (id INT)"]) = true /\
  loop 1 3 [Samples.fk_unquoted; fk_open;
            py "CREATE TABLE t (id INT)"] 1 [] =
  Ok [constraint_block (py "fk_user")
        (fk_open ++ nl :: py "CREATE TABLE t (id INT)")].
Proof.
  split; [reflexivity|]. split; [reflexivity|].
  exact (proj1 (unterminated_statement_takes_rest
                  [Samples.fk_unquoted; fk_open;
                   py "CREATE TABLE t (id INT)"] 1 []
                  fk_open eq_refl eq_refl)
           (py "orders") (py "fk_user") eq_refl eq_refl eq_refl 0).
Defined.

End Unterminated.


(* ================================================================= *)
(** ** A second pass over an index line *)

Module SecondPass.
Import Py PyFacts Migration MigrationFacts Notions.

(** The scan of [split] on [INDEX ] passes white space. *)
Lemma split_index_spaces (ws t p : str) (ps : list str) :
  forallb isspace ws = true ->
  split t INDEX_sp = p :: ps ->
  split (ws ++ t) INDEX_sp = (ws ++ p) :: ps.
Proof.
  intros Hws Ht. induction ws as [|c ws IH]; [exact Ht|].
  cbn [forallb] in Hws. apply andb_true_iff in Hws as [Hc Hws].
  cbn [app]. change INDEX_sp with (73%N :: py "NDEX ") in *.
  rewrite split_step.
  - now rewrite (IH Hws).
  - apply startswith_head_diff. intros ->. discriminate Hc.
Qed.

(** It passes the words in front of the keyword too. *)
Lemma split_index_create (t p : str) (ps : list str) :
  split t INDEX_sp = p :: ps ->
  split (py "CREATE " ++ t) INDEX_sp = (py "CREATE " ++ p) :: ps /\
  split (py "CREATE UNIQUE " ++ t) INDEX_sp = (py "CREATE UNIQUE " ++ p) :: ps.
Proof.
  intros Ht. change INDEX_sp with (73%N :: py "NDEX ") in *.
  split.
  - change (py "CREATE " ++ t)
      with (67 :: 82 :: 69 :: 65 :: 84 :: 69 :: 32 :: t)%N.
    repeat (rewrite split_step by reflexivity). now rewrite Ht.
  - change (py "CREATE UNIQUE " ++ t)
      with (67 :: 82 :: 69 :: 65 :: 84 :: 69 :: 32 ::
            85 :: 78 :: 73 :: 81 :: 85 :: 69 :: 32 :: t)%N.
    repeat (rewrite split_step by reflexivity). now rewrite Ht.
Qed.

(** The first piece of the keyword and what follows it: empty when a
    space follows the keyword, and else the keyword and more. *)
Lemma split_index_keyword (rest : str) :
  exists p ps more,
    split (INDEX ++ rest) INDEX_sp = p :: ps /\ p ++ INDEX = INDEX ++ more.
Proof.
  assert (Hother : forall q qs,
             startswith (INDEX ++ rest) INDEX_sp = false ->
             split rest INDEX_sp = q :: qs ->
             split (INDEX ++ rest) INDEX_sp = (INDEX ++ q) :: qs).
  { intros q qs E Hq. change INDEX_sp with (73%N :: py "NDEX ") in *.
    change (INDEX ++ rest) with (73 :: 78 :: 68 :: 69 :: 88 :: rest)%N in *.
    rewrite (split_step _ _ _ _ E).
    repeat (rewrite split_step by reflexivity). now rewrite Hq. }
  destruct (split rest INDEX_sp) as [|q qs] eqn:Hq.
  { change INDEX_sp with (73%N :: py "NDEX ") in Hq.
    now apply split_not_nil in Hq. }
  destruct (startswith (INDEX ++ rest) INDEX_sp) eqn:E.
  - destruct (startswith_inv _ _ E) as (t & Ht). rewrite Ht.
    change INDEX_sp with (73%N :: py "NDEX ") at 2.
    rewrite (split_match 73%N (py "NDEX ")).
    destruct (split t (73%N :: py "NDEX ")) as [|p' ps'] eqn:Hp.
    { now apply split_not_nil in Hp. }
    exists [], (p' :: ps'), []. split; [reflexivity|].
    now rewrite app_nil_r.
  - exists (INDEX ++ q), qs, (q ++ INDEX).
    split; [now apply Hother|]. now rewrite <- app_assoc.
Qed.

(** The first piece of an index line, with the keyword after it, is
    white space, the leading keyword sequence, and more. *)
Lemma index_line_first_piece (line p0 : str) (ps : list str) :
  is_create_index line = true ->
  split line INDEX_sp = p0 :: ps ->
  exists ws more,
    forallb isspace ws = true /\
    (p0 ++ INDEX = ws ++ CREATE_INDEX ++ more \/
     p0 ++ INDEX = ws ++ CREATE_UNIQUE_INDEX ++ more).
Proof.
  unfold is_create_index. intros [H|H]%orb_true_iff Hs;
    [apply (Classification.strip_startswith_iff
              67%N 88%N (py "REATE INDE") eq_refl eq_refl) in H
    |apply (Classification.strip_startswith_iff
              67%N 88%N (py "REATE UNIQUE INDE") eq_refl eq_refl) in H];
    destruct H as (ws & rest & -> & Hws);
    destruct (split_index_keyword rest) as (p & ps' & more & Hk & Hm);
    exists ws, more; (split; [exact Hws|]).
  - left.
    change (67%N :: py "REATE INDE" ++ [88%N])
      with (py "CREATE " ++ INDEX) in Hs.
    rewrite <- (app_assoc (py "CREATE ")) in Hs.
    destruct (split_index_create _ _ _ Hk) as (Hc & _).
    rewrite (split_index_spaces ws _ _ _ Hws Hc) in Hs.
    injection Hs as <- _.
    transitivity (ws ++ py "CREATE " ++ (p ++ INDEX));
      [now rewrite <- !app_assoc|now rewrite Hm].
  - right.
    change (67%N :: py "REATE UNIQUE INDE" ++ [88%N])
      with (py "CREATE UNIQUE " ++ INDEX) in Hs.
    rewrite <- (app_assoc (py "CREATE UNIQUE ")) in Hs.
    destruct (split_index_create _ _ _ Hk) as (_ & Hc).
    rewrite (split_index_spaces ws _ _ _ Hws Hc) in Hs.
    injection Hs as <- _.
    transitivity (ws ++ py "CREATE UNIQUE " ++ (p ++ INDEX));
      [now rewrite <- !app_assoc|now rewrite Hm].
Qed.

(** X11: the index rule is stable.  Whatever line the index branch
    emits for an index line is again an index line and holds the guard,
    so that a second pass emits it as it is: the guard is never inserted
    twice. *)
Theorem index_rule_stable (lines : list str) (i : nat)
  (new_lines : list str) (line out : str) :
  nth_error lines i = Some line ->
  is_create_index line = true ->
  body (length lines) lines i new_lines = Ok (i + 1, new_lines ++ [out]) ->
  is_create_index out = true /\
  str_in IF_NOT_EXISTS out = true /\
  forall lines2 k acc,
    nth_error lines2 k = Some out ->
    body (length lines2) lines2 k acc = Ok (k + 1, acc ++ [out]).
Proof.
  intros Hn Hx Hb.
  pose proof (nth_error_nth _ _ [] Hn) as Hline.
  rewrite <- Hline in Hx. rewrite (body_create_index _ _ _ _ Hx) in Hb.
  rewrite Hline in Hx, Hb.
  assert (Hout : is_create_index out = true /\
                 str_in IF_NOT_EXISTS out = true).
  { destruct (str_in INDEX line && negb (str_in IF_NOT_EXISTS line)) eqn:E.
    - cbv zeta in Hb. unfold subscript in Hb.
      destruct (split line INDEX_sp) as [|p0 [|p1 ps]] eqn:Hs;
        try discriminate.
      assert (Ho : out = p0 ++ INDEX_IF_NOT_EXISTS_sp ++ p1).
      { cbn [nth_error bind] in Hb. injection Hb as Hb.
        apply app_inv_head in Hb. now injection Hb. }
      rewrite Ho. clear Hb Ho.
      destruct (index_line_first_piece line p0 (p1 :: ps) Hx Hs)
        as (ws & more & Hws & Hp).
      split.
      + replace (p0 ++ INDEX_IF_NOT_EXISTS_sp ++ p1)
          with ((p0 ++ INDEX) ++ py " IF NOT EXISTS " ++ p1)
          by (now rewrite <- app_assoc).
        unfold is_create_index. apply orb_true_iff.
        destruct Hp as [-> | ->]; [left|right];
          [apply (Classification.strip_startswith_iff
                    67%N 88%N (py "REATE INDE") eq_refl eq_refl)
          |apply (Classification.strip_startswith_iff
                    67%N 88%N (py "REATE UNIQUE INDE") eq_refl eq_refl)];
          exists ws, (more ++ py " IF NOT EXISTS " ++ p1);
          (split; [|exact Hws]); now rewrite <- !app_assoc.
      + replace (p0 ++ INDEX_IF_NOT_EXISTS_sp ++ p1)
          with ((p0 ++ INDEX_sp) ++ IF_NOT_EXISTS ++ py " " ++ p1)
          by (now rewrite <- app_assoc).
        apply str_in_app.
    - injection Hb as Hb. apply app_inv_head in Hb. injection Hb as <-.
      split; [exact Hx|].
      apply andb_false_iff in E as [E|E].
      + exfalso. revert E.
        unfold is_create_index in Hx. apply orb_true_iff in Hx.
        destruct Hx as [H|H];
          [apply (Classification.strip_startswith_iff
                    67%N 88%N (py "REATE INDE") eq_refl eq_refl) in H
          |apply (Classification.strip_startswith_iff
                    67%N 88%N (py "REATE UNIQUE INDE") eq_refl eq_refl) in H];
          destruct H as (ws & rest & -> & _).
        * change (67%N :: py "REATE INDE" ++ [88%N])
            with (py "CREATE " ++ INDEX ++ []).
          rewrite <- !app_assoc, app_assoc, str_in_app. discriminate.
        * change (67%N :: py "REATE UNIQUE INDE" ++ [88%N])
            with (py "CREATE UNIQUE " ++ INDEX ++ []).
          rewrite <- !app_assoc, app_assoc, str_in_app. discriminate.
      + now apply negb_false_iff in E. }
  destruct Hout as [Ho Hg]. split; [exact Ho|]. split; [exact Hg|].
  intros lines2 k acc Hk.
  pose proof (nth_error_nth _ _ [] Hk) as Hout. rewrite <- Hout in Ho, Hg |- *.
  rewrite (body_create_index _ _ _ _ Ho), Hg.
  now rewrite andb_false_r.
Qed.

(** [index_rule_stable] at the index example. *)
Lemma index_rule_stable_witness :
  nth_error [Samples.idx_email] 0 = Some Samples.idx_email /\
  is_create_index Samples.idx_email = true /\
  body 1 [Samples.idx_email] 0 [] = Ok (1, [Samples.idx_email_safe]) /\
  body 1 [Samples.idx_email_safe] 0 [] = Ok (1, [Samples.idx_email_safe]).
Proof.
  split; [reflexivity|]. split; [reflexivity|]. split; [reflexivity|].
  exact (proj2 (proj2 (index_rule_stable [Samples.idx_email] 0 []
                         Samples.idx_email Samples.idx_email_safe
                         eq_refl eq_refl eq_refl))
           [Samples.idx_email_safe] 0 [] eq_refl).
Defined.

End SecondPass.
